(** * Session summariser: the transcript analyser of [summarize_session.py]

    A shallow embedding of [.cursor/scripts/summarize_session.py]: the
    Python string operations it relies on, the backtracking regular
    expressions of [re.findall], the error/resolution correlator, the
    context source resolver and the report renderer with its three output
    surfaces.

    Text is UTF-8, held in a [string] byte by byte: a code point beyond
    ASCII is its two to four bytes, all above 127, so substring tests,
    splitting at newlines and the character classes of the patterns read
    the same on bytes as on code points.  Case folding is exact where it
    can touch an ASCII letter: on ASCII, and on the four code points
    beyond ASCII that [str.lower] or [re.I] tie to the letters i, k and s. *)

From Stdlib Require Import String Ascii List Bool Arith Lia DecimalString.
Import ListNotations.
Open Scope string_scope.

(** ** Python strings *)

Module PyStr.

Definition nl : ascii := "010"%char.
Definition dot : ascii := "."%char.

(** The one-character string holding a newline. *)
Definition NL : string := String nl "".

Definition is_upper (c : ascii) : bool :=
  Nat.leb 65 (nat_of_ascii c) && Nat.leb (nat_of_ascii c) 90.

Definition is_lower (c : ascii) : bool :=
  Nat.leb 97 (nat_of_ascii c) && Nat.leb (nat_of_ascii c) 122.

Definition lower_char (c : ascii) : ascii :=
  if is_upper c then ascii_of_nat (nat_of_ascii c + 32) else c.

Definition upper_char (c : ascii) : ascii :=
  if is_lower c then ascii_of_nat (nat_of_ascii c - 32) else c.

(** The code points beyond ASCII that case folding ties to an ASCII
    letter, in UTF-8. *)
Definition KELVIN : string :=                       (* U+212A, Kelvin sign *)
  String "226" (String "132" (String "170" "")).
Definition I_DOT : string :=                        (* U+0130, capital I with dot *)
  String "196" (String "176" "").
Definition DOTLESS_I : string :=                    (* U+0131, small dotless i *)
  String "196" (String "177" "").
Definition LONG_S : string :=                       (* U+017F, small long s *)
  String "197" (String "191" "").
Definition COMBINING_DOT : string :=                (* U+0307, combining dot above *)
  String "204" (String "135" "").

(** [s.lower()].  ASCII capitals go to their small letters; U+212A goes
    to [k] and U+0130 to [i] followed by U+0307, the only code points
    beyond ASCII whose lower case holds an ASCII character.  Every other
    code point beyond ASCII lowers to code points beyond ASCII: its bytes
    are left as they are, which no test against ASCII text can tell. *)
Fixpoint lower (s : string) : string :=
  match s with
  | "" => ""
  | String c1 s1 =>
      let plain := String (lower_char c1) (lower s1) in
      match s1 with
      | "" => plain
      | String c2 s2 =>
          if Ascii.eqb c1 "196" && Ascii.eqb c2 "176"
          then String "i" (COMBINING_DOT ++ lower s2)
          else
            match s2 with
            | "" => plain
            | String c3 s3 =>
                if Ascii.eqb c1 "226" && Ascii.eqb c2 "132" && Ascii.eqb c3 "170"
                then String "k" (lower s3)
                else plain
            end
      end
  end.

(** [needle in hay] on strings: substring test. *)
Fixpoint contains (needle hay : string) : bool :=
  prefix needle hay ||
  match hay with
  | "" => false
  | String _ hay' => contains needle hay'
  end.

(** [c in s] for a single character. *)
Fixpoint has_char (c : ascii) (s : string) : bool :=
  match s with
  | "" => false
  | String d s' => Ascii.eqb c d || has_char c s'
  end.

(** [s.split(sep)] for a one-character separator: never empty. *)
Fixpoint split (sep : ascii) (s : string) : list string :=
  match s with
  | "" => [""]
  | String c s' =>
      if Ascii.eqb c sep then "" :: split sep s'
      else match split sep s' with
           | l :: ls => String c l :: ls
           | [] => [String c ""]
           end
  end.

(** [sep.join(ls)] *)
Definition join (sep : string) (ls : list string) : string :=
  String.concat sep ls.

(** [ls[a:b]] for [0 <= a], [0 <= b]. *)
Definition slice {A} (a b : nat) (ls : list A) : list A :=
  firstn (b - a) (skipn a ls).

(** [range(a, b)] and [range(a, b, -1)]. *)
Definition range (a b : nat) : list nat := seq a (b - a).
Definition range_down (a b : nat) : list nat := rev (seq (S b) (a - b)).

(** A loop whose body may [return]: the first iteration that returns
    decides. *)
Fixpoint first_some {A B} (f : A -> option B) (l : list A) : option B :=
  match l with
  | [] => None
  | x :: l' => match f x with
               | Some y => Some y
               | None => first_some f l'
               end
  end.

(** [[i for i, x in enumerate(l) if p x]] *)
Fixpoint indices_from {A} (p : A -> bool) (i : nat) (l : list A) : list nat :=
  match l with
  | [] => []
  | x :: l' => if p x then i :: indices_from p (S i) l'
               else indices_from p (S i) l'
  end.

Definition indices {A} (p : A -> bool) (l : list A) : list nat :=
  indices_from p 0 l.

End PyStr.
Import PyStr.

(** ** The error/resolution correlator *)

(** [extract_error_context(context, error_match, window=3)] *)
Definition extract_error_context (context error_match : string) (window : nat)
  : string :=
  let lines := split nl context in
  match
    first_some
      (fun i =>
         if contains error_match (nth i lines "") then
           let start := Nat.max 0 (i - window) in
           let end_ := Nat.min (length lines) (i + window + 1) in
           Some (join NL (slice start end_ lines))
         else None)
      (range 0 (length lines))
  with
  | Some r => r
  | None => error_match
  end.

(** The test of line 34: some resolution phrase occurs in the lowered line. *)
Definition resolution_phrases : list string :=
  ["that worked"; "fixed"; "solved"; "resolved"].

Definition resolution_line (line : string) : bool :=
  existsb (fun phrase => contains phrase (lower line)) resolution_phrases.

(** The test of line 37. *)
Definition action_line (line : string) : bool :=
  contains "edit_file" line || contains "run_terminal_cmd" line.

(** The backward loop over [j] (lines 36-38). *)
Definition backward_scan (lines : list string) (error_idx i : nat)
  : option string :=
  first_some
    (fun j =>
       if action_line (nth j lines "")
       then Some (join NL (slice j (i + 1) lines))
       else None)
    (range_down (i - 1) error_idx).

(** The forward loop over [i] (lines 32-38). *)
Definition forward_scan (lines : list string) (error_idx window : nat)
  : option string :=
  first_some
    (fun i =>
       if resolution_line (nth i lines "")
       then backward_scan lines error_idx i
       else None)
    (range (error_idx + 1) (Nat.min (length lines) (error_idx + window))).

Definition error_indices (lines : list string) (error : string) : list nat :=
  indices (fun line => contains error line) lines.

(** [find_solution_for_error(context, error, window=5)] *)
Definition find_solution_for_error (context error : string) (window : nat)
  : option string :=
  let lines := split nl context in
  first_some (fun error_idx => forward_scan lines error_idx window)
             (error_indices lines error).

(** ** Regular expressions: the backtracking matcher behind [re.findall] *)

Module Re.

(** A character class [[...]] or [[^...]]: single characters and ranges. *)
Inductive item : Type :=
| Ch (c : ascii)
| Rng (lo hi : ascii).

Record charclass : Type := { negated : bool; items : list item }.

(** The fragment of patterns the program uses.  Repetition of a class is
    greedy and unbounded ([[..]*] is [ClsRep cl 0], [[..]{4,}] is
    [ClsRep cl 4]); [Upto n r] is the greedy bounded [(?:r){0,n}]; [Grp]
    is the capturing group.  [(?:...)] only brackets and has no node. *)
Inductive regex : Type :=
| Lit (w : string)
| Cls (cl : charclass)
| Seq (r1 r2 : regex)
| Alt (r1 r2 : regex)
| ClsRep (cl : charclass) (min : nat)
| Upto (n : nat) (r : regex)
| Grp (r : regex).

Definition in_item (c : ascii) (it : item) : bool :=
  match it with
  | Ch d => Ascii.eqb c d
  | Rng lo hi => Nat.leb (nat_of_ascii lo) (nat_of_ascii c)
                 && Nat.leb (nat_of_ascii c) (nat_of_ascii hi)
  end.

(** Membership of [c] in a class; under [re.I] either case of [c] may
    belong to the listed items.  The classes that the program uses under
    [re.I] list no letter. *)
Definition in_class (ic : bool) (cl : charclass) (c : ascii) : bool :=
  let listed :=
    existsb (in_item c) (items cl)
    || (ic && (existsb (in_item (lower_char c)) (items cl)
               || existsb (in_item (upper_char c)) (items cl))) in
  if negated cl then negb listed else listed.

(** A literal character of the pattern against one byte of the text. *)
Definition char_eq (ic : bool) (p c : ascii) : bool :=
  if ic then Ascii.eqb (lower_char p) (lower_char c) else Ascii.eqb p c.

(** What a match leaves: the unread text and the text of group 1. *)
Definition result : Type := (string * option string)%type.
Definition cont : Type := string -> option string -> option result.

(** The bytes [e] taken off the front of [s], if they are there. *)
Fixpoint strip (e s : string) : option string :=
  match e with
  | "" => Some s
  | String a e' =>
      match s with
      | "" => None
      | String c s' => if Ascii.eqb a c then strip e' s' else None
      end
  end.

(** The code points beyond ASCII that a letter of the pattern matches
    under [re.I]: U+0130 and U+0131 for [i], U+017F for [s], U+212A for
    [k]. *)
Definition fold_extra (p : ascii) : list string :=
  if Ascii.eqb (lower_char p) "i" then [I_DOT; DOTLESS_I]
  else if Ascii.eqb (lower_char p) "s" then [LONG_S]
  else if Ascii.eqb (lower_char p) "k" then [KELVIN]
  else [].

(** One literal character [p] of the pattern read off the front of [s]:
    a byte that equals it, up to case under [re.I], or under [re.I] one of
    the code points beyond ASCII that fold to it. *)
Definition read_char (ic : bool) (p : ascii) (s : string) : option string :=
  match s with
  | "" => None
  | String c s' =>
      if char_eq ic p c then Some s'
      else if ic then first_some (fun e => strip e s) (fold_extra p)
      else None
  end.

(** The literal [w] read off the front of [s]. *)
Fixpoint exec_lit (ic : bool) (w s : string) : option string :=
  match w with
  | "" => Some s
  | String p w' =>
      match read_char ic p s with
      | Some s' => exec_lit ic w' s'
      | None => None
      end
  end.

(** Greedy repetition of a class: the longest run first, then one
    character fewer at a time, never below [min]. *)
Fixpoint exec_rep (ic : bool) (cl : charclass) (min : nat) (s : string)
         (k : string -> option result) : option result :=
  let stop := match min with O => k s | S _ => None end in
  match s with
  | "" => stop
  | String c s' =>
      if in_class ic cl c then
        match exec_rep ic cl (Nat.pred min) s' k with
        | Some x => Some x
        | None => stop
        end
      else stop
  end.

(** The text read between [s] and its suffix [s']. *)
Definition consumed (s s' : string) : string :=
  substring 0 (String.length s - String.length s') s.

(** Greedy bounded repetition [(?:body){0,n}]: one more round of [body]
    first, else stop here. *)
Fixpoint upto_loop (body : string -> option string -> cont -> option result)
         (n : nat) (s : string) (g : option string) (k : cont)
  : option result :=
  match n with
  | O => k s g
  | S n' =>
      match body s g (fun s' g' => upto_loop body n' s' g' k) with
      | Some x => Some x
      | None => k s g
      end
  end.

(** [exec ic r s g k]: match [r] at the front of [s], group 1 holding [g]
    so far, then continue with [k]; alternatives are tried in the order
    the backtracking engine tries them. *)
Fixpoint exec (ic : bool) (r : regex) (s : string) (g : option string)
         (k : cont) {struct r} : option result :=
  match r with
  | Lit w =>
      match exec_lit ic w s with
      | Some s' => k s' g
      | None => None
      end
  | Cls cl =>
      match s with
      | "" => None
      | String c s' => if in_class ic cl c then k s' g else None
      end
  | Seq r1 r2 => exec ic r1 s g (fun s' g' => exec ic r2 s' g' k)
  | Alt r1 r2 =>
      match exec ic r1 s g k with
      | Some x => Some x
      | None => exec ic r2 s g k
      end
  | ClsRep cl min => exec_rep ic cl min s (fun s' => k s' g)
  | Upto n r1 => upto_loop (exec ic r1) n s g k
  | Grp r1 => exec ic r1 s g (fun s' _ => k s' (Some (consumed s s')))
  end.

(** One match attempt at the front of [s]; [must_advance] refuses the
    empty match, as the engine does right after an empty match. *)
Definition attempt (ic : bool) (r : regex) (must_advance : bool) (s : string)
  : option result :=
  exec ic r s None
       (fun s' g =>
          if must_advance && Nat.eqb (String.length s') (String.length s)
          then None else Some (s', g)).

Fixpoint has_group (r : regex) : bool :=
  match r with
  | Lit _ | Cls _ | ClsRep _ _ => false
  | Seq r1 r2 | Alt r1 r2 => has_group r1 || has_group r2
  | Upto _ r1 => has_group r1
  | Grp _ => true
  end.

(** What [findall] records of a match: group 1 when the pattern has a
    group (the empty string if it took no part), else the whole match. *)
Definition recorded (r : regex) (s : string) (m : result) : string :=
  if has_group r then
    match snd m with Some g => g | None => "" end
  else consumed s (fst m).

(** The scan of [findall]: [skip] characters still belong to the last
    match; otherwise a match is attempted here.  A non-empty match is
    recorded and skipped over; an empty one is recorded and a non-empty
    match is tried at the same place before moving on. *)
Fixpoint scan (ic : bool) (r : regex) (s : string) (skip : nat)
  : list string :=
  let next n := match s with "" => [] | String _ s' => scan ic r s' n end in
  match skip with
  | S n => next n
  | O =>
      match attempt ic r false s with
      | None => next 0
      | Some m =>
          match String.length s - String.length (fst m) with
          | S n => recorded r s m :: next n
          | O =>
              recorded r s m ::
              match attempt ic r true s with
              | Some m' =>
                  recorded r s m' ::
                  next (String.length s - String.length (fst m') - 1)
              | None => next 0
              end
          end
      end
  end.

(** [re.findall(r, s)] and [re.findall(r, s, re.I)] *)
Definition findall (ic : bool) (r : regex) (s : string) : list string :=
  scan ic r s 0.

(** [[^...]*], [a|b|...] over literals. *)
Definition star (cl : charclass) : regex := ClsRep cl 0.

Fixpoint alt_lits (w : string) (ws : list string) : regex :=
  match ws with
  | [] => Lit w
  | w' :: ws' => Alt (Lit w) (alt_lits w' ws')
  end.

End Re.
Import Re.

(** ** The patterns of [summarize_session] *)

(** [[^\n.]] and [[\n.]] *)
Definition not_stop : charclass := {| negated := true; items := [Ch nl; Ch dot] |}.
Definition stop : charclass := {| negated := false; items := [Ch nl; Ch dot] |}.

(** [[A-Z !]] *)
Definition shout : charclass :=
  {| negated := false; items := [Rng "A" "Z"; Ch " "; Ch "!"] |}.

(** [(?:error|exception|failed|failure)] *)
Definition error_vocabulary : regex :=
  alt_lits "error" ["exception"; "failed"; "failure"].

(** [(?:error|exception|failed|failure)[^\n.]*[\n.][^\n.]*] (line 70) *)
Definition error_pattern : regex :=
  Seq error_vocabulary (Seq (star not_stop) (Seq (Cls stop) (star not_stop))).

(** [([A-Z !]{4,}|(?:damn|shit|fuck|crap))] and the pattern of line 71 *)
Definition frustration_trigger : regex :=
  Alt (ClsRep shout 4) (alt_lits "damn" ["shit"; "fuck"; "crap"]).

Definition frustration_pattern : regex :=
  Seq (Grp frustration_trigger) (star not_stop).

(** The tail [(?: [\n.][^\n.]* ){0,2}]: up to two further sentences or lines. *)
Definition trailing : regex := Upto 2 (Seq (Cls stop) (star not_stop)).

(** The three tiers of [solution_patterns] (lines 82-86). *)
Definition solved_vocabulary : regex := alt_lits "that worked" ["fixed"; "solved"].
Definition solved_pattern : regex :=
  Seq solved_vocabulary (Seq (star not_stop) trailing).
Definition tentative_pattern : regex :=
  Seq (alt_lits "let's try" ["try something"; "different approach"])
      (Seq (star not_stop) trailing).
Definition uncertain_pattern : regex :=
  Seq (alt_lits "this might" ["maybe"; "could try"])
      (Seq (star not_stop) trailing).

Definition solution_patterns : list (regex * string) :=
  [(solved_pattern, "SOLVED"); (tentative_pattern, "??"); (uncertain_pattern, "?")].

(** [errors] and [frustration] (lines 70-71). *)
Definition errors (context : string) : list string :=
  findall true error_pattern context.
Definition frustration (context : string) : list string :=
  findall false frustration_pattern context.

(** ** [collections.Counter] *)

(** [c[x] = c.get(x, 0) + 1]: a new key goes to the end, as in a dict. *)
Fixpoint incr (x : string) (c : list (string * nat)) : list (string * nat) :=
  match c with
  | [] => [(x, 1)]
  | (y, n) :: c' => if String.eqb x y then (y, S n) :: c' else (y, n) :: incr x c'
  end.

(** [Counter(l)] *)
Definition Counter (l : list string) : list (string * nat) :=
  fold_left (fun c x => incr x c) l [].

(** [sorted(..., key=count, reverse=True)] is stable: an entry goes before
    the first entry whose count is not greater than its own. *)
Fixpoint insert_by_count (e : string * nat) (l : list (string * nat))
  : list (string * nat) :=
  match l with
  | [] => [e]
  | e' :: l' => if Nat.ltb (snd e) (snd e') then e' :: insert_by_count e l'
                else e :: l
  end.

(** [c.most_common()] *)
Definition most_common (c : list (string * nat)) : list (string * nat) :=
  fold_right insert_by_count [] c.

(** [set(l)], listed in order of first occurrence (Python leaves the
    iteration order of a set unspecified). *)
Fixpoint py_set (l : list string) : list string :=
  match l with
  | [] => []
  | x :: l' => x :: filter (fun y => negb (String.eqb y x)) (py_set l')
  end.

(** ** Effects: exceptions, the environment and the output surfaces *)

Inductive exn : Type :=
| AttributeError   (* no such attribute on the receiver *)
| TypeError
| IndexError
| OSError          (* a source or an external tool is unavailable *)
| ImportError.

Inductive outcome (A : Type) : Type :=
| Ret (a : A)
| Raise (e : exn).
Arguments Ret {A} a.
Arguments Raise {A} e.

(** Everything a run reads from outside. *)
Record World : Type := {
  env_CURSOR_CONTEXT : option string;  (* os.getenv('CURSOR_CONTEXT') *)
  stdin_ready : outcome bool;          (* select.select([sys.stdin], [], [], 0.0)[0] *)
  stdin_read : outcome string;         (* sys.stdin.read() *)
  history_read : outcome string;       (* open('.conversation_history').read() *)
  clock : nat -> string;               (* the n-th datetime.now().strftime(...) *)
  git_diff : outcome string;           (* git diff --name-status, its stdout *)
  tree : outcome string;               (* tree -L 2 -I ..., its stdout *)
  old_bugfixes : list string;          (* bugfixes.md before the run *)
  old_summary : list string            (* last_session_summary.md before the run *)
}.

(** The three output surfaces.  Each holds the texts handed to [print] or
    [write], in order: the content of a file is their concatenation. *)
Record Outputs : Type := {
  console : list string;
  bugfixes_md : list string;
  summary_md : list string
}.

Inductive handle : Type := BUGFIXES_FILE | SUMMARY_FILE.

(** What the variable [f] of [summarize_session] may hold. *)
Inductive pyval : Type :=
| File (h : handle)
| Str (s : string).

Module Eff.

(** A computation reads and extends the outputs and returns or raises.
    The console and the two files are taken to accept what they are
    given: [print], [open] and [write] are modelled where they succeed. *)

Definition M (A : Type) : Type := Outputs -> Outputs * outcome A.

Definition ret {A} (a : A) : M A := fun o => (o, Ret a).
Definition raise {A} (e : exn) : M A := fun o => (o, Raise e).
Definition bind {A B} (m : M A) (f : A -> M B) : M B :=
  fun o => match m o with
           | (o', Ret a) => f a o'
           | (o', Raise e) => (o', Raise e)
           end.

(** [try: body / except: pass] *)
Definition try_pass (body : M unit) : M unit :=
  fun o => match body o with
           | (o', Ret _) => (o', Ret tt)
           | (o', Raise _) => (o', Ret tt)
           end.

(** A value computed outside, or the exception it raised. *)
Definition lift {A} (x : outcome A) : M A := fun o => (o, x).

Definition print (s : string) : M unit :=
  fun o => ({| console := console o ++ [s];
               bugfixes_md := bugfixes_md o;
               summary_md := summary_md o |}, Ret tt).

Definition write (h : handle) (s : string) : M unit :=
  fun o =>
    match h with
    | BUGFIXES_FILE =>
        ({| console := console o;
            bugfixes_md := bugfixes_md o ++ [s];
            summary_md := summary_md o |}, Ret tt)
    | SUMMARY_FILE =>
        ({| console := console o;
            bugfixes_md := bugfixes_md o;
            summary_md := summary_md o ++ [s] |}, Ret tt)
    end.

(** [open(path, "a")] keeps the content, [open(path, "w")] truncates. *)
Definition open (h : handle) (truncate : bool) : M pyval :=
  fun o =>
    if truncate then
      match h with
      | BUGFIXES_FILE =>
          ({| console := console o; bugfixes_md := [];
              summary_md := summary_md o |}, Ret (File h))
      | SUMMARY_FILE =>
          ({| console := console o; bugfixes_md := bugfixes_md o;
              summary_md := [] |}, Ret (File h))
      end
    else (o, Ret (File h)).

(** [x.write]: only a file has the method. *)
Definition getattr_write (x : pyval) : M (string -> M unit) :=
  match x with
  | File h => ret (write h)
  | Str _ => raise AttributeError
  end.

(** [x[0]] *)
Definition index0 (x : pyval) : M string :=
  match x with
  | File _ => raise TypeError
  | Str "" => raise IndexError
  | Str (String c _) => ret (String c "")
  end.

(** [for x in l: body x] *)
Fixpoint for_ {A} (l : list A) (body : A -> M unit) : M unit :=
  match l with
  | [] => ret tt
  | x :: l' => bind (body x) (fun _ => for_ l' body)
  end.

(** [for v in l: body v] where [v] is a variable already bound to [v0]:
    after the loop [v] holds the last element, or [v0] if [l] is empty. *)
Fixpoint for_var (v0 : pyval) (l : list pyval) (body : pyval -> M unit)
  : M pyval :=
  match l with
  | [] => ret v0
  | x :: l' => bind (body x) (fun _ => for_var x l' body)
  end.

Definition when (b : bool) (m : M unit) : M unit := if b then m else ret tt.

End Eff.
Import Eff.

Declare Scope eff_scope.
Delimit Scope eff_scope with eff.
Notation "x <- m ;; k" := (bind m (fun x => k))
  (at level 61, m at next level, right associativity) : eff_scope.
Notation "m ;; k" := (bind m (fun _ => k))
  (at level 61, right associativity) : eff_scope.

(** Truth value of a list and of a string. *)
Definition nonempty {A} (l : list A) : bool :=
  match l with [] => false | _ :: _ => true end.
Definition truthy (s : string) : bool :=
  match s with "" => false | String _ _ => true end.

(** [str(n)] *)
Definition str_nat (n : nat) : string :=
  NilEmpty.string_of_uint (Nat.to_uint n).

(** ** The context source resolver *)

Definition sentinel : string := "No conversation context found".

(** The body of a [try] inside a function: it returns from the function
    ([Some]), falls through ([None]) or raises. *)
Definition except_pass {A} (body : outcome (option A)) : option A :=
  match body with
  | Ret r => r
  | Raise _ => None
  end.

Definition obind {A B} (x : outcome A) (f : A -> outcome B) : outcome B :=
  match x with
  | Ret a => f a
  | Raise e => Raise e
  end.

(** [get_conversation_context()] *)
Definition get_conversation_context (w : World) : outcome string :=
  let cursor_context := env_CURSOR_CONTEXT w in
  let from_stdin :=
    except_pass
      (obind (stdin_ready w) (fun ready =>
         if ready then obind (stdin_read w) (fun s => Ret (Some s))
         else Ret None)) in
  let from_history :=
    except_pass (obind (history_read w) (fun s => Ret (Some s))) in
  match cursor_context with
  | Some (String c cs) => Ret (String c cs)
  | _ =>
      match from_stdin with
      | Some s => Ret s
      | None =>
          match from_history with
          | Some s => Ret s
          | None => Ret sentinel
          end
      end
  end.

(** ** The report renderer *)

Open Scope eff_scope.

(** Truth value of what [find_solution_for_error] returns. *)
Definition is_true (r : option string) : bool :=
  match r with
  | Some s => truthy s
  | None => false
  end.

(** The loop over [solution_patterns] (lines 78-94): the SOLVED matches go
    to [solutions], the others to [ambiguous] with their prefix. *)
Definition classify (context : string) : list string * list (string * string) :=
  fold_left
    (fun acc pp =>
       let '(pattern, prefix) := pp in
       fold_left
         (fun acc' m =>
            let '(solutions, ambiguous) := acc' in
            if existsb (String.eqb prefix) ["??"; "?"]
            then (solutions, (ambiguous ++ [(prefix, m)])%list)
            else ((solutions ++ [m])%list, ambiguous))
         (findall true pattern context) acc)
    solution_patterns ([], []).

Definition console_issues_header : string := NL ++ "Outstanding Issues:".
Definition snapshot_issues_header : string := NL ++ "### Outstanding Issues" ++ NL.

(** Lines 96-121: the console summary. *)
Definition print_summary (w : World) (context : string)
           (solutions : list string) (ambiguous : list (string * string))
           (most_common_errors : list (string * nat)) : M unit :=
  print (NL ++ "=== Session Summary ===" ++ NL) ;;
  print ("Session Date: " ++ clock w 0 ++ NL) ;;
  when (nonempty solutions)
    (print (NL ++ "Completed Changes:") ;;
     for_ solutions (fun sol => print ("✓ " ++ sol))) ;;
  when (nonempty ambiguous)
    (print (NL ++ "In Progress/Attempted Changes:") ;;
     for_ ambiguous (fun pa => print (fst pa ++ " " ++ snd pa))) ;;
  when (nonempty most_common_errors)
    (print console_issues_header ;;
     for_ most_common_errors (fun ec =>
       when (negb (is_true (find_solution_for_error context (fst ec) 5)))
         (print ("! " ++ fst ec ++ " (occurred " ++ str_nat (snd ec) ++ " times)")))) ;;
  print (NL ++ "Next Steps:") ;;
  when (nonempty most_common_errors) (print "1. Address remaining errors") ;;
  when (nonempty ambiguous) (print "2. Follow up on attempted changes") ;;
  print "3. Continue with planned development tasks".

(** Lines 131-143: one entry of the append-log per error group. *)
Definition write_error_entry (context : string) (f : pyval) (ec : string * nat)
  : M unit :=
  wr <- getattr_write f ;;
  wr (NL ++ "#### Error (occurred " ++ str_nat (snd ec) ++ " times):" ++ NL) ;;
  wr <- getattr_write f ;; wr ("```" ++ NL) ;;
  wr <- getattr_write f ;; wr (extract_error_context context (fst ec) 3) ;;
  wr <- getattr_write f ;; wr (NL ++ "```" ++ NL) ;;
  let solution := find_solution_for_error context (fst ec) 5 in
  match solution with
  | Some (String c cs) =>
      wr <- getattr_write f ;; wr (NL ++ "Resolution:" ++ NL ++ "```" ++ NL) ;;
      wr <- getattr_write f ;; wr (String c cs) ;;
      wr <- getattr_write f ;; wr (NL ++ "```" ++ NL)
  | _ =>
      wr <- getattr_write f ;;
      wr (NL ++ "⚠️ No clear resolution found" ++ NL)
  end.

(** Lines 145-149: the frustration points.  The loop variable is [f]
    itself, so inside the loop [f] is a marker, not the file. *)
Definition write_frustration (frustration : list string) (f : pyval) : M pyval :=
  if nonempty frustration then
    wr <- getattr_write f ;; wr (NL ++ "#### Frustration Points:" ++ NL) ;;
    for_var f (map Str (py_set frustration))
      (fun f => wr <- getattr_write f ;;
                c <- index0 f ;;
                wr ("- " ++ c ++ NL))
  else ret f.

(** Lines 124-156: [with open(BUGFIXES_FILE, "a") as f] and its body. *)
Definition write_bugfixes (w : World) (context : string)
           (frustration : list string)
           (solutions : list string) (ambiguous : list (string * string))
           (most_common_errors : list (string * nat)) : M unit :=
  f <- open BUGFIXES_FILE false ;;
  wr <- getattr_write f ;;
  wr (NL ++ NL ++ "## Session " ++ clock w 1 ++ NL) ;;
  f <- (if nonempty most_common_errors || nonempty frustration then
          wr <- getattr_write f ;; wr (NL ++ "### Issues Found" ++ NL) ;;
          for_ most_common_errors (write_error_entry context f) ;;
          write_frustration frustration f
        else ret f) ;;
  when (nonempty solutions || nonempty ambiguous)
    (wr <- getattr_write f ;; wr (NL ++ "### Solutions and Attempts:" ++ NL) ;;
     for_ solutions (fun sol =>
       wr <- getattr_write f ;; wr ("- SOLVED: " ++ sol ++ NL)) ;;
     for_ ambiguous (fun pa =>
       wr <- getattr_write f ;; wr ("- " ++ fst pa ++ " " ++ snd pa ++ NL))).

(** Lines 164-187: an external snapshot, omitted when the tool fails or
    prints nothing. *)
Definition write_external (f : pyval) (title : string) (tool : outcome string)
  : M unit :=
  try_pass
    (out <- lift tool ;;
     when (truthy out)
       (wr <- getattr_write f ;; wr (title ++ NL) ;;
        wr <- getattr_write f ;; wr ("```" ++ NL ++ out ++ "```" ++ NL ++ NL))).

(** Lines 160-213: the body of [with open(SUMMARY_FILE, "w") as f]. *)
Definition snapshot_body (w : World) (context : string)
           (solutions : list string) (ambiguous : list (string * string))
           (most_common_errors : list (string * nat)) (f : pyval) : M unit :=
  wr <- getattr_write f ;; wr ("# Last Session Summary" ++ NL ++ NL) ;;
  wr <- getattr_write f ;; wr ("Session Date: " ++ clock w 2 ++ NL ++ NL) ;;
  write_external f "## Files Changed" (git_diff w) ;;
  write_external f "## Project Structure" (tree w) ;;
  wr <- getattr_write f ;; wr ("## Session Overview" ++ NL) ;;
  when (nonempty solutions)
    (wr <- getattr_write f ;; wr (NL ++ "### Completed Changes" ++ NL) ;;
     for_ solutions (fun sol =>
       wr <- getattr_write f ;; wr ("- " ++ sol ++ NL))) ;;
  when (nonempty ambiguous)
    (wr <- getattr_write f ;; wr (NL ++ "### In Progress/Attempted Changes" ++ NL) ;;
     for_ ambiguous (fun pa =>
       wr <- getattr_write f ;; wr ("- " ++ fst pa ++ " " ++ snd pa ++ NL))) ;;
  when (nonempty most_common_errors)
    (wr <- getattr_write f ;; wr snapshot_issues_header ;;
     for_ most_common_errors (fun ec =>
       when (negb (is_true (find_solution_for_error context (fst ec) 5)))
         (wr <- getattr_write f ;;
          wr ("- " ++ fst ec ++ " (occurred " ++ str_nat (snd ec) ++ " times)"
                   ++ NL)))) ;;
  wr <- getattr_write f ;; wr (NL ++ "## Next Steps" ++ NL) ;;
  when (nonempty most_common_errors)
    (wr <- getattr_write f ;; wr ("1. Address remaining errors" ++ NL)) ;;
  when (nonempty ambiguous)
    (wr <- getattr_write f ;; wr ("2. Follow up on attempted changes" ++ NL)) ;;
  wr <- getattr_write f ;; wr ("3. Continue with planned development tasks" ++ NL).

(** Lines 159-213: the snapshot file is opened for writing, hence emptied,
    and filled. *)
Definition write_snapshot (w : World) (context : string)
           (solutions : list string) (ambiguous : list (string * string))
           (most_common_errors : list (string * nat)) : M unit :=
  f <- open SUMMARY_FILE true ;;
  snapshot_body w context solutions ambiguous most_common_errors f.

(** [summarize_session()] *)
Definition summarize_session (w : World) : M unit :=
  context <- lift (get_conversation_context w) ;;
  let errors := errors context in
  let frustration := frustration context in
  let error_counter := Counter errors in
  let most_common_errors := most_common error_counter in
  let '(solutions, ambiguous) := classify context in
  print_summary w context solutions ambiguous most_common_errors ;;
  write_bugfixes w context frustration solutions ambiguous most_common_errors ;;
  write_snapshot w context solutions ambiguous most_common_errors.

(** A run of the script: nothing printed yet, the two files as they are. *)
Definition run (w : World) : Outputs * outcome unit :=
  summarize_session w
    {| console := []; bugfixes_md := old_bugfixes w; summary_md := old_summary w |}.

Close Scope eff_scope.

(** ** The resolver as the specification words it *)

(** Source 1: the externally supplied value, if present and non-empty. *)
Definition env_source (w : World) : option string :=
  match env_CURSOR_CONTEXT w with
  | Some c => if String.eqb c "" then None else Some c
  | None => None
  end.

(** Source 2: buffered standard input, if the zero-timeout readiness check
    reports data and the read succeeds. *)
Definition stdin_source (w : World) : option string :=
  match stdin_ready w with
  | Ret true => match stdin_read w with
                | Ret s => Some s
                | Raise _ => None
                end
  | Ret false => None
  | Raise _ => None
  end.

(** Source 3: the local history file, if it can be read. *)
Definition history_source (w : World) : option string :=
  match history_read w with
  | Ret s => Some s
  | Raise _ => None
  end.

(** Strict priority order, first success wins, else the fallback. *)
Definition first_success (sources : list (option string)) (fallback : string)
  : string :=
  fold_right (fun src rest => match src with Some s => s | None => rest end)
             fallback sources.

Definition resolve_spec (w : World) : string :=
  first_success [env_source w; stdin_source w; history_source w] sentinel.

(** ** Sample transcripts and environments *)

(** A world in which only [CURSOR_CONTEXT] yields a transcript. *)
Definition world_of (context : string) : World :=
  {| env_CURSOR_CONTEXT := Some context;
     stdin_ready := Ret false;
     stdin_read := Ret "";
     history_read := Raise OSError;
     clock := fun _ => "2025-03-01 09:30";
     git_diff := Ret ("M Sources/App.swift" ++ NL);
     tree := Raise OSError;
     old_bugfixes := ["# Bugfixes" ++ NL];
     old_summary := ["# Last Session Summary" ++ NL; snapshot_issues_header] |}.

(** The transcript of the specification's example. *)
Definition example_transcript : string :=
  "Error: build failed" ++ NL ++
  "ok let's try a different approach" ++ NL ++
  "... edit_file foo.py ..." ++ NL ++
  "that worked now".

Definition example_error : string :=
  "Error: build failed" ++ NL ++ "ok let's try a different approach".

Definition example_snippet : string :=
  "... edit_file foo.py ..." ++ NL ++ "that worked now".

(** An error on line 0, an action on line 1, the resolution phrase on
    line 5. *)
Definition far_fix_transcript : string :=
  "build error. retry" ++ NL ++
  "edit_file a.py" ++ NL ++
  "b" ++ NL ++ "c" ++ NL ++ "d" ++ NL ++
  "fixed it".

(** Two resolution lines in one window; only the second follows an action. *)
Definition late_action_lines : list string :=
  ["an error here. again"; "fixed"; "edit_file a.py"; "solved"].

Definition late_action_transcript : string := join NL late_action_lines.

Definition shouting_transcript : string :=
  "WHY IS THIS BROKEN again" ++ NL ++ "WHY IS THIS BROKEN again".

(** ** Shapes of the output *)

Inductive surface : Type := Console | OnDisk (h : handle).

(** [add sf c o]: the texts [c] appended to the surface [sf] of [o]. *)
Definition add (sf : surface) (c : list string) (o : Outputs) : Outputs :=
  match sf with
  | Console =>
      {| console := console o ++ c; bugfixes_md := bugfixes_md o;
         summary_md := summary_md o |}
  | OnDisk BUGFIXES_FILE =>
      {| console := console o; bugfixes_md := bugfixes_md o ++ c;
         summary_md := summary_md o |}
  | OnDisk SUMMARY_FILE =>
      {| console := console o; bugfixes_md := bugfixes_md o;
         summary_md := summary_md o ++ c |}
  end.

(** [m] returns normally and only appends texts satisfying [P] to [sf]. *)
Definition emits (P : string -> Prop) (sf : surface) (m : M unit) : Prop :=
  forall o, exists c, Forall P c /\ m o = (add sf c o, Ret tt).

(** The first resolution-indicating line of the forward window of an
    occurrence at [error_idx], if any. *)
Definition first_resolution (lines : list string) (error_idx window : nat)
  : option nat :=
  first_some
    (fun i => if resolution_line (nth i lines "") then Some i else None)
    (range (error_idx + 1) (Nat.min (length lines) (error_idx + window))).

(** The heading of the frustration section of the append-log (line 147). *)
Definition frustration_header : string := NL ++ "#### Frustration Points:" ++ NL.

(** ** Matching, in words *)

Definition is_some {A} (x : option A) : bool :=
  match x with Some _ => true | None => false end.



(** Every character of [m] belongs to the class. *)
Fixpoint all_in (ic : bool) (cl : charclass) (m : string) : bool :=
  match m with
  | "" => true
  | String c m' => in_class ic cl c && all_in ic cl m'
  end.

Definition profanity : list string := ["damn"; "shit"; "fuck"; "crap"].

(** A bare trigger token of the frustration pattern: a run of four or more
    characters among [A-Z], space and [!], or a profanity word. *)
Definition is_trigger (m : string) : bool :=
  (Nat.leb 4 (String.length m) && all_in false shout m)
  || existsb (String.eqb m) profanity.

(** The frustration pattern without its capturing group: [findall] then
    records the whole match. *)
Definition frustration_whole : regex :=
  Seq frustration_trigger (star not_stop).





(** ** Further vocabulary for the properties *)

(** The sentence and line boundaries of the patterns: [.] and newline. *)
Definition is_stop (c : ascii) : bool := Ascii.eqb c nl || Ascii.eqb c dot.

Fixpoint count_stops (s : string) : nat :=
  match s with
  | "" => 0
  | String c s' => (if is_stop c then 1 else 0) + count_stops s'
  end.

(** The same world with another content of the snapshot file. *)
Definition with_old_summary (w : World) (content : list string) : World :=
  {| env_CURSOR_CONTEXT := env_CURSOR_CONTEXT w;
     stdin_ready := stdin_ready w;
     stdin_read := stdin_read w;
     history_read := history_read w;
     clock := clock w;
     git_diff := git_diff w;
     tree := tree w;
     old_bugfixes := old_bugfixes w;
     old_summary := content |}.

(** [m] returns normally and appends exactly the texts [c] to [sf],
    whatever the outputs were before. *)
Definition writes (sf : surface) (c : list string) (m : M unit) : Prop :=
  forall o, m o = (add sf c o, Ret tt).

(** The heading every run appends to the append-log (line 125). *)
Definition session_heading (w : World) : string :=
  NL ++ NL ++ "## Session " ++ clock w 1 ++ NL.

(** Counts in non-increasing order. *)
Fixpoint descending (l : list nat) : bool :=
  match l with
  | [] => true
  | n :: l' => match l' with
               | [] => true
               | m :: _ => Nat.leb m n
               end && descending l'
  end.

(** A transcript with the error twice: the first mention is never
    resolved, the second is. *)
Definition retry_transcript : string :=
  "build error. stop" ++ NL ++
  "nothing" ++ NL ++ "nothing" ++ NL ++ "nothing" ++ NL ++ "nothing" ++ NL ++
  "build error. stop" ++ NL ++
  "run_terminal_cmd make" ++ NL ++
  "solved".

(** [f] hands to its continuation what is left of the text after a piece
    read off its front. *)
Definition splits (f : string -> option string -> cont -> option result)
  : Prop :=
  forall s g k x, f s g k = Some x ->
                  exists m s' g', s = m ++ s' /\ k s' g' = Some x.

(** [c[x]] on a [Counter]: a missing key counts 0. *)
Fixpoint count_of (x : string) (c : list (string * nat)) : nat :=
  match c with
  | [] => 0
  | (y, n) :: c' => if String.eqb x y then n else count_of x c'
  end.

(** [m] takes every output to one related to it by [R], whether it
    returns or raises. *)
Definition respects (R : Outputs -> Outputs -> Prop) {A} (m : M A) : Prop :=
  forall o, R o (fst (m o)).

(** The append-log only grows at its end. *)
Definition log_grows (o o' : Outputs) : Prop :=
  exists b, bugfixes_md o' = (bugfixes_md o ++ b)%list.

(** Nothing more is printed. *)
Definition console_kept (o o' : Outputs) : Prop := console o' = console o.

(** [m] returns normally and appends to [sf] texts that do not depend on
    the outputs so far. *)
Definition writes_some (sf : surface) (m : M unit) : Prop :=
  exists c, writes sf c m.

(** A world in which no source yields a transcript. *)
Definition silent_world : World :=
  {| env_CURSOR_CONTEXT := None;
     stdin_ready := Ret false;
     stdin_read := Raise OSError;
     history_read := Raise OSError;
     clock := fun _ => "2025-03-01 09:30";
     git_diff := Raise OSError;
     tree := Raise OSError;
     old_bugfixes := ["# Bugfixes" ++ NL];
     old_summary := [] |}.

(** The console line of an unresolved error group (line 114). *)
Definition issue_line (ec : string * nat) : string :=
  "! " ++ fst ec ++ " (occurred " ++ str_nat (snd ec) ++ " times)".





(** * Properties *)

(** ** Strings and loops *)

Lemma prefix_has_char (c : ascii) (e h : string) :
  prefix e h = true -> has_char c e = true -> has_char c h = true.
Proof.
  revert h; induction e as [|a e IH]; intros h Hp Hc; simpl in Hc.
  - discriminate.
  - destruct h as [|b h]; simpl in Hp; [discriminate|].
    destruct (ascii_dec a b) as [->|]; [|discriminate].
    simpl. apply orb_true_iff in Hc as [Hc|Hc].
    + rewrite Hc; reflexivity.
    + rewrite (IH h Hp Hc). apply orb_true_r.
Qed.

Lemma contains_has_char (c : ascii) (e h : string) :
  contains e h = true -> has_char c e = true -> has_char c h = true.
Proof.
  induction h as [|b h IH]; simpl; intros Hc He.
  - rewrite orb_false_r in Hc. destruct e; [discriminate He|discriminate Hc].
  - apply orb_true_iff in Hc as [Hp|Hc].
    + exact (prefix_has_char c e (String b h) Hp He).
    + rewrite (IH Hc He). apply orb_true_r.
Qed.

(** No line of [s.split(sep)] holds the separator. *)
Lemma split_no_sep (sep : ascii) (s line : string) :
  In line (split sep s) -> has_char sep line = false.
Proof.
  revert line; induction s as [|c s IH]; simpl; intros line Hin.
  - destruct Hin as [<-|[]]; reflexivity.
  - destruct (Ascii.eqb c sep) eqn:E.
    + destruct Hin as [<-|Hin]; [reflexivity|auto].
    + destruct (split sep s) as [|l ls] eqn:Es.
      * destruct Hin as [<-|[]]. simpl.
        rewrite Ascii.eqb_sym, E. reflexivity.
      * destruct Hin as [<-|Hin].
        -- simpl. rewrite Ascii.eqb_sym, E. simpl. apply IH. now left.
        -- apply IH. now right.
Qed.

Lemma first_some_none {A B} (f : A -> option B) (l : list A) :
  (forall x, In x l -> f x = None) -> first_some f l = None.
Proof.
  induction l as [|x l IH]; simpl; intros H; [reflexivity|].
  rewrite (H x (or_introl eq_refl)). apply IH. intros y Hy. apply H. now right.
Qed.

Lemma indices_from_nil {A} (p : A -> bool) (i : nat) (l : list A) :
  (forall x, In x l -> p x = false) -> indices_from p i l = [].
Proof.
  revert i; induction l as [|x l IH]; simpl; intros i H; [reflexivity|].
  rewrite (H x (or_introl eq_refl)). apply IH. intros y Hy. apply H. now right.
Qed.

Lemma in_range (a b i : nat) : In i (range a b) <-> a <= i < b.
Proof. unfold range. rewrite in_seq. lia. Qed.

Lemma in_range_down (a b j : nat) : In j (range_down a b) <-> b < j <= a.
Proof. unfold range_down. rewrite <- in_rev, in_seq. lia. Qed.

(** ** C8: the context source resolver *)

(** C8. [get_conversation_context] never raises and returns what the
    priority order of the specification prescribes: the non-empty
    [CURSOR_CONTEXT], else the stdin content when the readiness check
    reports data, else the content of the history file, else the sentinel;
    an exception raised by a probe is swallowed. *)
Theorem get_conversation_context_priority (w : World) :
  get_conversation_context w = Ret (resolve_spec w).
Proof.
  unfold get_conversation_context, resolve_spec, first_success,
    env_source, stdin_source, history_source, except_pass, obind; simpl.
  destruct (env_CURSOR_CONTEXT w) as [[|c cs]|]; simpl;
    destruct (stdin_ready w) as [[|]|e1];
    destruct (stdin_read w) as [s|e2];
    destruct (history_read w) as [h|e3]; reflexivity.
Qed.

(** ** C1: the example of the specification *)

(** The one error group of the example gets no resolution snippet at
    all. *)
Lemma example_has_no_resolution_link :
  ~ (exists e snippet,
        most_common (Counter (errors example_transcript)) = [(e, 1)]
        /\ find_solution_for_error example_transcript e 5 = Some snippet).
Proof.
  intros [e [snippet [He Hs]]]. vm_compute in He. injection He as <-.
  vm_compute in Hs. discriminate Hs.
Qed.

(** C1 at the failing input.  The example transcript yields one error
    group with count 1, one SOLVED and one TENTATIVE phrase, as the
    specification has it; but the extracted error text runs over the
    first line break, no line holds it, and [find_solution_for_error]
    returns [None] where the specification has a snippet.  The snippet
    from the [edit_file] line through "that worked now" is what the
    single-line text "Error: build failed" would get. *)
Theorem example_transcript_analysis :
  most_common (Counter (errors example_transcript)) = [(example_error, 1)]
  /\ classify example_transcript
     = (["that worked now"],
        [("??", "let's try a different approach" ++ NL ++ ".")])
  /\ find_solution_for_error example_transcript example_error 5 = None
  /\ find_solution_for_error example_transcript "Error: build failed" 5
     = Some example_snippet.
Proof. repeat split; vm_compute; reflexivity. Qed.

(** ** C5: the forward window *)

(** The forward loop looks at the lines after the occurrence up to, and
    not including, line [error_idx + window]. *)
Lemma forward_scan_reach (lines : list string) (error_idx window : nat) :
  (forall i, error_idx < i < error_idx + window ->
             resolution_line (nth i lines "") = false) ->
  forward_scan lines error_idx window = None.
Proof.
  intros H. unfold forward_scan. apply first_some_none.
  intros i Hi. apply in_range in Hi. rewrite H by lia. reflexivity.
Qed.

(** C5 at a failing input.  The error sits on line 0, an action on line 1
    and the resolution phrase on line 5 = 0 + 5: with the default window 5
    the error is unresolved, the scan stopping at line 4; a window of 6
    would have reached it. *)
Theorem forward_window_stops_one_line_early :
  errors far_fix_transcript = ["error. retry"]
  /\ error_indices (split nl far_fix_transcript) "error. retry" = [0]
  /\ action_line (nth 1 (split nl far_fix_transcript) "") = true
  /\ resolution_line (nth 5 (split nl far_fix_transcript) "") = true
  /\ find_solution_for_error far_fix_transcript "error. retry" 5 = None
  /\ find_solution_for_error far_fix_transcript "error. retry" 6
     = Some ("edit_file a.py" ++ NL ++ "b" ++ NL ++ "c" ++ NL ++ "d" ++ NL
             ++ "fixed it").
Proof. repeat split; vm_compute; reflexivity. Qed.

(** ** C6: which resolution line of the window is used *)

Lemma first_some_seq_first {B} (f : nat -> option B) (n a i : nat) (y : B) :
  a <= i < a + n ->
  (forall x, a <= x < i -> f x = None) ->
  f i = Some y ->
  first_some f (seq a n) = Some y.
Proof.
  revert a; induction n as [|n IH]; intros a Hi Hbefore Hy; [lia|].
  simpl. destruct (Nat.eq_dec a i) as [->|Hne].
  - rewrite Hy. reflexivity.
  - rewrite (Hbefore a) by lia. apply IH; [lia| |assumption].
    intros x Hx. apply Hbefore. lia.
Qed.

Lemma first_some_rev_seq_last {B} (f : nat -> option B) (n a j : nat) (y : B) :
  a <= j < a + n ->
  (forall x, j < x < a + n -> f x = None) ->
  f j = Some y ->
  first_some f (rev (seq a n)) = Some y.
Proof.
  induction n as [|n IH]; intros Hj Hafter Hy; [lia|].
  rewrite seq_S, rev_app_distr. simpl.
  destruct (Nat.eq_dec (a + n) j) as [->|Hne].
  - rewrite Hy. reflexivity.
  - rewrite (Hafter (a + n)) by lia. apply IH; [lia| |assumption].
    intros x Hx. apply Hafter. lia.
Qed.

(** The backward loop returns the snippet of the nearest action line. *)
Lemma backward_scan_nearest (lines : list string) (error_idx i j : nat) :
  error_idx < j < i ->
  action_line (nth j lines "") = true ->
  (forall j', j < j' < i -> action_line (nth j' lines "") = false) ->
  backward_scan lines error_idx i = Some (join NL (slice j (i + 1) lines)).
Proof.
  intros Hj Hact Hnone. unfold backward_scan, range_down.
  apply first_some_rev_seq_last with (j := j).
  - lia.
  - intros x Hx. rewrite Hnone by lia. reflexivity.
  - rewrite Hact. reflexivity.
Qed.

Lemma backward_scan_no_action (lines : list string) (error_idx i : nat) :
  (forall j, error_idx < j < i -> action_line (nth j lines "") = false) ->
  backward_scan lines error_idx i = None.
Proof.
  intros Hnone. unfold backward_scan. apply first_some_none.
  intros j Hj. apply in_range_down in Hj. rewrite Hnone by lia. reflexivity.
Qed.

(** C6, as stated, fails on [late_action_lines]: line 1 is the first
    resolution line of the window of the occurrence on line 0 and no line
    lies between them, yet the occurrence yields a snippet. *)
Lemma later_resolution_line_is_used :
  ~ (first_resolution late_action_lines 0 5 = Some 1 ->
     (forall j, 0 < j < 1 -> action_line (nth j late_action_lines "") = false) ->
     forward_scan late_action_lines 0 5 = None).
Proof.
  intros H.
  assert (E : forward_scan late_action_lines 0 5 = None).
  { apply H; [vm_compute; reflexivity | intros j Hj; lia]. }
  vm_compute in E. discriminate E.
Qed.

(** The same through the whole correlator: the error text is what the
    error pattern extracts from line 0 of the transcript. *)
Lemma later_resolution_end_to_end :
  errors late_action_transcript = ["error here. again"]
  /\ find_solution_for_error late_action_transcript "error here. again" 5
     = Some ("edit_file a.py" ++ NL ++ "solved").
Proof. split; vm_compute; reflexivity. Qed.

(** C6, amended.  The resolution lines of the forward window are tried in
    order and the first one with an action line strictly between the
    occurrence and itself is used, with the nearest such action line: a
    resolution line without one does not end the scan. *)
Theorem forward_scan_first_qualifying
        (lines : list string) (error_idx window i j : nat) :
  error_idx < j < i ->
  i < Nat.min (length lines) (error_idx + window) ->
  resolution_line (nth i lines "") = true ->
  action_line (nth j lines "") = true ->
  (forall j', j < j' < i -> action_line (nth j' lines "") = false) ->
  (forall i' j', error_idx < j' < i' -> i' < i ->
                 resolution_line (nth i' lines "") = true ->
                 action_line (nth j' lines "") = false) ->
  forward_scan lines error_idx window = Some (join NL (slice j (i + 1) lines)).
Proof.
  intros Hj Hi Hres Hact Hnear Hearlier. unfold forward_scan, range.
  apply first_some_seq_first with (i := i).
  - lia.
  - intros i' Hi'.
    destruct (resolution_line (nth i' lines "")) eqn:Hr; [|reflexivity].
    apply backward_scan_no_action. intros j' Hj'.
    apply (Hearlier i' j'); [lia|lia|assumption].
  - rewrite Hres. apply backward_scan_nearest; assumption.
Qed.

Lemma forward_scan_first_qualifying_witness :
  forward_scan late_action_lines 0 5
  = Some (join NL (slice 2 (3 + 1) late_action_lines)).
Proof.
  apply (forward_scan_first_qualifying late_action_lines 0 5 3 2).
  - lia.
  - simpl. lia.
  - vm_compute. reflexivity.
  - vm_compute. reflexivity.
  - intros j' Hj'. lia.
  - intros i' j' Hj' Hi' _.
    assert (j' = 1) as -> by lia. vm_compute. reflexivity.
Defined.

(** ** Output shapes *)

Lemma add_nil (sf : surface) (o : Outputs) : add sf [] o = o.
Proof.
  destruct o as [c b s]; destruct sf as [|[|]]; simpl;
    rewrite app_nil_r; reflexivity.
Qed.

Lemma add_add (sf : surface) (c1 c2 : list string) (o : Outputs) :
  add sf c2 (add sf c1 o) = add sf (c1 ++ c2) o.
Proof.
  destruct o as [c b s]; destruct sf as [|[|]]; simpl;
    rewrite app_assoc; reflexivity.
Qed.

Section Emits.

Variable P : string -> Prop.
Variable sf : surface.

Lemma emits_ret : emits P sf (ret tt).
Proof. intros o. exists []. split; [constructor|]. rewrite add_nil. reflexivity. Qed.

Lemma emits_bind (m : M unit) (k : unit -> M unit) :
  emits P sf m -> (forall u, emits P sf (k u)) -> emits P sf (bind m k).
Proof.
  intros Hm Hk o. destruct (Hm o) as [c1 [H1 E1]].
  destruct (Hk tt (add sf c1 o)) as [c2 [H2 E2]].
  exists (c1 ++ c2)%list. split; [apply Forall_app; split; assumption|].
  unfold bind. rewrite E1, E2, add_add. reflexivity.
Qed.

Lemma emits_when (b : bool) (m : M unit) :
  emits P sf m -> emits P sf (when b m).
Proof. destruct b; simpl; [auto|intros _; apply emits_ret]. Qed.

Lemma emits_for {A} (l : list A) (body : A -> M unit) :
  (forall x, In x l -> emits P sf (body x)) -> emits P sf (for_ l body).
Proof.
  induction l as [|x l IH]; simpl; intros H; [apply emits_ret|].
  apply emits_bind; [apply H; now left|].
  intros _. apply IH. intros y Hy. apply H. now right.
Qed.

(** What follows a computation that only emits runs on the extended output. *)
Lemma bind_emits {B} (m : M unit) (k : unit -> M B) (o : Outputs) :
  emits P sf m ->
  exists c, Forall P c /\ bind m k o = k tt (add sf c o).
Proof.
  intros Hm. destruct (Hm o) as [c [Hc E]]. exists c. split; [exact Hc|].
  unfold bind. rewrite E. reflexivity.
Qed.

Lemma emits_bind_ret {A} (a : A) (k : A -> M unit) :
  emits P sf (k a) -> emits P sf (bind (ret a) k).
Proof. intros H o. exact (H o). Qed.

Lemma emits_bind_open (h : handle) (k : pyval -> M unit) :
  emits P sf (k (File h)) -> emits P sf (bind (open h false) k).
Proof. intros H o. exact (H o). Qed.

End Emits.

Lemma emits_print (P : string -> Prop) (s : string) :
  P s -> emits P Console (print s).
Proof. intros H o. exists [s]. split; [repeat constructor; exact H|reflexivity]. Qed.

Lemma emits_write (P : string -> Prop) (h : handle) (s : string) :
  P s -> emits P (OnDisk h) (bind (getattr_write (File h)) (fun wr => wr s)).
Proof.
  intros H o. exists [s]. split; [repeat constructor; exact H|].
  destruct h; reflexivity.
Qed.

Ltac emits_steps :=
  repeat first
    [ apply emits_write
    | apply emits_print
    | apply emits_when
    | apply emits_for; intros ? ?
    | apply emits_bind; [|intros _]
    | apply emits_ret
    | apply emits_bind_open
    | apply emits_bind_ret ].

(** ** C3 and C4: the frustration section of the append-log *)

Lemma print_summary_emits (w : World) (context : string)
      (solutions : list string) (ambiguous : list (string * string))
      (most_common_errors : list (string * nat)) :
  emits (fun _ => True) Console
        (print_summary w context solutions ambiguous most_common_errors).
Proof. unfold print_summary. emits_steps; exact I. Qed.

Lemma write_error_entry_emits (context : string) (ec : string * nat) :
  emits (fun _ => True) (OnDisk BUGFIXES_FILE)
        (write_error_entry context (File BUGFIXES_FILE) ec).
Proof.
  unfold write_error_entry.
  destruct (find_solution_for_error context (fst ec) 5) as [[|c cs]|];
    emits_steps; exact I.
Qed.

(** With a marker to list, the loop of line 148 rebinds [f] to the marker
    and the call of [f.write] raises before anything is listed. *)
Lemma write_frustration_raises (markers : list string) (o : Outputs) :
  markers <> [] ->
  write_frustration markers (File BUGFIXES_FILE) o
  = (add (OnDisk BUGFIXES_FILE) [frustration_header] o, Raise AttributeError).
Proof.
  intros Hne. destruct markers as [|m ms]; [contradiction|].
  destruct o as [c b s]. reflexivity.
Qed.

Lemma write_bugfixes_raises (w : World) (context : string)
      (markers solutions : list string) (ambiguous : list (string * string))
      (most_common_errors : list (string * nat)) (o : Outputs) :
  markers <> [] ->
  exists b,
    write_bugfixes w context markers solutions ambiguous most_common_errors o
    = (add (OnDisk BUGFIXES_FILE) (b ++ [frustration_header]) o,
       Raise AttributeError).
Proof.
  intros Hne. unfold write_bugfixes.
  assert (Hor : nonempty most_common_errors || nonempty markers = true).
  { destruct markers; [contradiction|]. apply orb_true_r. }
  rewrite Hor. clear Hor.
  pose proof (emits_for (fun _ => True) (OnDisk BUGFIXES_FILE)
                most_common_errors
                (write_error_entry context (File BUGFIXES_FILE))
                (fun ec _ => write_error_entry_emits context ec)) as Hfor.
  unfold bind. cbn [open getattr_write ret write].
  match goal with
  | |- context [for_ most_common_errors ?b ?o'] =>
      destruct (Hfor o') as [c [_ Ec]]; rewrite Ec
  end.
  rewrite write_frustration_raises by assumption.
  exists ((NL ++ NL ++ "## Session " ++ clock w 1 ++ NL)
          :: (NL ++ "### Issues Found" ++ NL) :: c).
  destruct o as [oc ob os]. simpl.
  repeat rewrite <- app_assoc. reflexivity.
Qed.

(** C3 at a failing input.  The transcript shouts the same marker twice;
    the set holds it once, but the run raises right after the heading of
    the frustration section: the append-log has no list line for it. *)
Theorem frustration_markers_not_listed :
  frustration shouting_transcript
  = ["WHY IS THIS BROKEN "; "WHY IS THIS BROKEN "]
  /\ py_set (frustration shouting_transcript) = ["WHY IS THIS BROKEN "]
  /\ snd (run (world_of shouting_transcript)) = Raise AttributeError
  /\ bugfixes_md (fst (run (world_of shouting_transcript)))
     = ["# Bugfixes" ++ NL;
        NL ++ NL ++ "## Session 2025-03-01 09:30" ++ NL;
        NL ++ "### Issues Found" ++ NL;
        frustration_header].
Proof. repeat split; vm_compute; reflexivity. Qed.

(** C4. When the transcript yields a frustration marker, the run raises
    [AttributeError] in the loop over the markers, right after the heading
    of the frustration section went to the append-log, and the snapshot
    file is never opened: it keeps its old content. *)
Theorem frustration_aborts_before_snapshot (w : World) (context : string) :
  get_conversation_context w = Ret context ->
  frustration context <> [] ->
  exists o b,
    run w = (o, Raise AttributeError)
    /\ bugfixes_md o = (old_bugfixes w ++ b ++ [frustration_header])%list
    /\ summary_md o = old_summary w.
Proof.
  intros Hctx Hfr. unfold run, summarize_session.
  unfold bind at 1. unfold lift. rewrite Hctx.
  destruct (classify context) as [solutions ambiguous].
  match goal with
  | |- context [bind (print_summary ?w ?c ?s ?a ?m) ?k ?o] =>
      destruct (bind_emits (fun _ => True) Console
                  (print_summary w c s a m) k o
                  (print_summary_emits w c s a m)) as [pc [_ Ep]];
      rewrite Ep; clear Ep
  end.
  unfold bind at 1.
  match goal with
  | |- context [write_bugfixes ?w ?c ?f ?s ?a ?m ?o] =>
      destruct (write_bugfixes_raises w c f s a m o Hfr) as [b Eb];
      rewrite Eb; clear Eb
  end.
  eexists. exists b. split; [reflexivity|]. split; reflexivity.
Qed.

Lemma frustration_aborts_before_snapshot_witness :
  exists o b,
    run (world_of shouting_transcript) = (o, Raise AttributeError)
    /\ bugfixes_md o
       = (old_bugfixes (world_of shouting_transcript) ++ b
          ++ [frustration_header])%list
    /\ summary_md o = old_summary (world_of shouting_transcript).
Proof.
  apply (frustration_aborts_before_snapshot
           (world_of shouting_transcript) shouting_transcript).
  - reflexivity.
  - vm_compute. discriminate.
Defined.

(** ** C2: error texts that run over a line break *)

Lemma multiline_in_no_line (context e line : string) :
  has_char nl e = true ->
  In line (split nl context) ->
  contains e line = false.
Proof.
  intros He Hin. destruct (contains e line) eqn:Hc; [|reflexivity].
  pose proof (contains_has_char nl e line Hc He) as H.
  rewrite (split_no_sep nl context line Hin) in H. discriminate H.
Qed.

(** C2. An extracted error whose text holds a newline lies in no line of
    the transcript: it has no occurrence index, [find_solution_for_error]
    returns [None] for it whatever the window, and [extract_error_context]
    returns the text itself. *)
Theorem multiline_error_is_never_located
        (context e : string) (window radius : nat) :
  In e (errors context) ->
  has_char nl e = true ->
  (forall line, In line (split nl context) -> contains e line = false)
  /\ error_indices (split nl context) e = []
  /\ find_solution_for_error context e window = None
  /\ extract_error_context context e radius = e.
Proof.
  intros _ He.
  assert (Hlines : forall line, In line (split nl context) ->
                                contains e line = false).
  { intros line Hin. exact (multiline_in_no_line context e line He Hin). }
  assert (Hidx : error_indices (split nl context) e = []).
  { unfold error_indices, indices. apply indices_from_nil. exact Hlines. }
  repeat split.
  - exact Hlines.
  - exact Hidx.
  - unfold find_solution_for_error. rewrite Hidx. reflexivity.
  - unfold extract_error_context.
    rewrite first_some_none; [reflexivity|].
    intros i Hi. apply in_range in Hi.
    rewrite Hlines; [reflexivity|]. apply nth_In. lia.
Qed.

Lemma multiline_error_is_never_located_witness :
  (forall line, In line (split nl example_transcript) ->
                contains example_error line = false)
  /\ error_indices (split nl example_transcript) example_error = []
  /\ find_solution_for_error example_transcript example_error 5 = None
  /\ extract_error_context example_transcript example_error 3 = example_error.
Proof.
  apply (multiline_error_is_never_located example_transcript example_error 5 3).
  - vm_compute. left. reflexivity.
  - vm_compute. reflexivity.
Defined.

(** ** The matcher *)

Lemma append_assoc (a b c : string) : (a ++ b) ++ c = a ++ (b ++ c).
Proof. induction a as [|x a IH]; simpl; [reflexivity|now rewrite IH]. Qed.

Lemma length_append (a b : string) :
  String.length (a ++ b) = String.length a + String.length b.
Proof. induction a as [|x a IH]; simpl; [reflexivity|now rewrite IH]. Qed.

Lemma substring_prefix (m s : string) :
  substring 0 (String.length m) (m ++ s) = m.
Proof.
  induction m as [|c m IH]; simpl.
  - destruct s; reflexivity.
  - now rewrite IH.
Qed.

(** What was read between [m ++ s'] and [s'] is [m]. *)
Lemma consumed_app (m s' : string) : consumed (m ++ s') s' = m.
Proof.
  unfold consumed. rewrite length_append.
  replace (String.length m + String.length s' - String.length s')
    with (String.length m) by lia.
  apply substring_prefix.
Qed.

(** What [strip] takes off is what it was asked to. *)
Lemma strip_exact (e s s' : string) : strip e s = Some s' -> s = e ++ s'.
Proof.
  revert s; induction e as [|a e IH]; simpl; intros s H.
  - now injection H as ->.
  - destruct s as [|c s]; [discriminate|].
    destruct (Ascii.eqb_spec a c) as [->|]; [|discriminate].
    now rewrite (IH s H).
Qed.

Lemma exec_lit_exact (w s s' : string) :
  exec_lit false w s = Some s' -> s = w ++ s'.
Proof.
  revert s; induction w as [|p w IH]; cbn [exec_lit]; intros s H.
  - now injection H as ->.
  - destruct s as [|c s]; [discriminate|]. cbn [read_char char_eq] in H.
    destruct (Ascii.eqb_spec p c) as [->|]; [|discriminate].
    cbn [append]. now rewrite (IH s H).
Qed.

Lemma exec_rep_sound (ic : bool) (cl : charclass) (min : nat) (s : string)
      (k : string -> option result) (x : result) :
  exec_rep ic cl min s k = Some x ->
  exists m s', s = m ++ s' /\ all_in ic cl m = true
               /\ min <= String.length m /\ k s' = Some x.
Proof.
  revert min; induction s as [|c s IH]; intros min H; simpl in H.
  - destruct min; [|discriminate]. exists "", "". now repeat split.
  - assert (Hstop : match min with O => k (String c s) | S _ => None end = Some x ->
                    exists m s', String c s = m ++ s' /\ all_in ic cl m = true
                                 /\ min <= String.length m /\ k s' = Some x).
    { destruct min; [|discriminate]. intros Hk.
      exists "", (String c s). now repeat split. }
    destruct (in_class ic cl c) eqn:Hc; [|auto].
    destruct (exec_rep ic cl (Nat.pred min) s k) as [y|] eqn:E; [|auto].
    injection H as ->.
    destruct (IH _ E) as [m [s' [-> [Hall [Hlen Hk]]]]].
    exists (String c m), s'. simpl. rewrite Hc, Hall.
    repeat split; [lia|assumption].
Qed.



(** An alternation of literals succeeds only through one of its words. *)
Lemma alt_lits_sound (ic : bool) (ws : list string) (w s : string)
      (g : option string) (k : cont) (x : result) :
  exec ic (alt_lits w ws) s g k = Some x ->
  exists p s', In p (w :: ws) /\ exec_lit ic p s = Some s' /\ k s' g = Some x.
Proof.
  revert w; induction ws as [|w' ws IH]; intros w H; simpl in H.
  - destruct (exec_lit ic w s) as [s'|] eqn:E; [|discriminate].
    exists w, s'. split; [now left|split; assumption].
  - destruct (exec_lit ic w s) as [s'|] eqn:E.
    + destruct (k s' g) as [y|] eqn:Ek.
      * injection H as ->. exists w, s'. split; [now left|split; assumption].
      * destruct (IH w' H) as [p [s'' [Hin [Hl Hk]]]].
        exists p, s''. split; [now right|split; assumption].
    + destruct (IH w' H) as [p [s'' [Hin [Hl Hk]]]].
      exists p, s''. split; [now right|split; assumption].
Qed.






(** A property of everything [findall] records follows from the property
    of what a single attempt records. *)
Lemma scan_forall (ic : bool) (r : regex) (P : string -> Prop) (s : string) :
  (forall t ma m, attempt ic r ma t = Some m -> P (recorded r t m)) ->
  forall skip, Forall P (scan ic r s skip).
Proof.
  intros H. induction s as [|c s IH]; intros skip.
  - destruct skip as [|n]; simpl; [|constructor].
    destruct (attempt ic r false "") as [m|] eqn:E; [|constructor].
    constructor; [exact (H _ _ _ E)|].
    destruct (attempt ic r true "") as [m'|] eqn:E'; [|constructor].
    constructor; [exact (H _ _ _ E')|constructor].
  - destruct skip as [|n]; [|apply IH].
    cbn [scan].
    destruct (attempt ic r false (String c s)) as [m|] eqn:E; [|apply IH].
    destruct (String.length (String c s) - String.length (fst m)).
    + constructor; [exact (H _ _ _ E)|].
      destruct (attempt ic r true (String c s)) as [m'|] eqn:E'; [|apply IH].
      constructor; [exact (H _ _ _ E')|apply IH].
    + constructor; [exact (H _ _ _ E)|apply IH].
Qed.

(** ** C10: what a frustration marker records *)

(** The continuation of a top-level attempt hands back what it is given. *)
Lemma attempt_cont_inv (ma : bool) (t s' : string) (g : option string)
      (m : result) :
  (if ma && Nat.eqb (String.length s') (String.length t)
   then None else Some (s', g)) = Some m ->
  m = (s', g).
Proof.
  destruct (ma && Nat.eqb (String.length s') (String.length t));
    [discriminate|]. now intros [= <-].
Qed.

Lemma in_profanity_trigger (p : string) : In p profanity -> is_trigger p = true.
Proof.
  intros H. unfold is_trigger. apply orb_true_iff. right.
  apply existsb_exists. exists p. split; [exact H|apply String.eqb_refl].
Qed.

Lemma frustration_attempt_records_trigger (t : string) (ma : bool) (m : result) :
  attempt false frustration_pattern ma t = Some m ->
  is_trigger (recorded frustration_pattern t m) = true.
Proof.
  unfold attempt, frustration_pattern, frustration_trigger, star.
  set (kf := fun (s' : string) (g : option string) =>
               if ma && Nat.eqb (String.length s') (String.length t)
               then None else Some (s', g)).
  set (K := fun (s' : string) (_ : option string) =>
              exec false (ClsRep not_stop 0) s' (Some (consumed t s')) kf).
  change (match exec false (ClsRep shout 4) t None K with
          | Some x => Some x
          | None => exec false (alt_lits "damn" ["shit"; "fuck"; "crap"]) t None K
          end = Some m ->
          is_trigger (match snd m with Some g => g | None => "" end) = true).
  assert (HK : forall s' g, K s' g = Some m -> snd m = Some (consumed t s')).
  { intros s' g HKm. unfold K in HKm. simpl in HKm.
    apply exec_rep_sound in HKm as [_ [s'' [_ [_ [_ Hkf]]]]].
    apply attempt_cont_inv in Hkf. subst m. reflexivity. }
  destruct (exec false (ClsRep shout 4) t None K) as [x|] eqn:E.
  - intros [= ->]. simpl in E.
    apply exec_rep_sound in E as [mm [s' [-> [Hall [Hlen Hk]]]]].
    rewrite (HK _ _ Hk), consumed_app. unfold is_trigger.
    rewrite Hall. apply Nat.leb_le in Hlen. rewrite Hlen. reflexivity.
  - intros H. apply alt_lits_sound in H as [p [s' [Hin [Hl Hk]]]].
    rewrite (HK _ _ Hk). apply exec_lit_exact in Hl. subst t.
    rewrite consumed_app. apply in_profanity_trigger. exact Hin.
Qed.

(** C10, as stated, fails: the marker recorded for a shouted sentence is
    the capital run alone, not the sentence up to its full stop. *)
Lemma marker_drops_trailing_context :
  frustration "WHY IS THIS BROKEN again. ok" = ["WHY IS THIS BROKEN "]
  /\ findall false frustration_whole "WHY IS THIS BROKEN again. ok"
     = ["WHY IS THIS BROKEN again"]
  /\ frustration "WHY IS THIS BROKEN again. ok"
     <> findall false frustration_whole "WHY IS THIS BROKEN again. ok".
Proof.
  repeat split; try (vm_compute; reflexivity).
  vm_compute. discriminate.
Qed.

(** C10, amended.  Every recorded frustration marker is a bare trigger
    token: a run of four or more characters among uppercase letters, space
    and [!], or one of the profanity words.  The context that follows is
    matched, not recorded. *)
Theorem frustration_marker_is_trigger (context marker : string) :
  In marker (frustration context) -> is_trigger marker = true.
Proof.
  intros Hin. unfold frustration, findall in Hin.
  pose proof (scan_forall false frustration_pattern
                (fun m => is_trigger m = true) context
                frustration_attempt_records_trigger 0) as Hall.
  rewrite Forall_forall in Hall. exact (Hall marker Hin).
Qed.

Lemma frustration_marker_is_trigger_witness :
  is_trigger "WHY IS THIS BROKEN " = true.
Proof.
  apply (frustration_marker_is_trigger
           "WHY IS THIS BROKEN again. ok" "WHY IS THIS BROKEN ").
  vm_compute. left. reflexivity.
Defined.

(** ** C7: the resolution test and the SOLVED tier *)



Lemma prefix_cons (a c : ascii) (p t : string) :
  prefix (String a p) (String c t) = if ascii_dec a c then prefix p t else false.
Proof. reflexivity. Qed.

Lemma contains_cons (p : string) (c : ascii) (h : string) :
  contains p (String c h) = prefix p (String c h) || contains p h.
Proof. reflexivity. Qed.

(** A word that heads the text occurs in it. *)
Lemma prefix_contains (p h : string) : prefix p h = true -> contains p h = true.
Proof. destruct h; simpl; intros ->; reflexivity. Qed.






















(** ** C9: no error vocabulary, no Outstanding Issues section *)



(** The inner loop of [classify] for one tier. *)
Lemma classify_tier (prefix : string) (l solutions : list string)
      (ambiguous : list (string * string)) :
  fold_left
    (fun acc' m =>
       let '(solutions, ambiguous) := acc' in
       if existsb (String.eqb prefix) ["??"; "?"]
       then (solutions, (ambiguous ++ [(prefix, m)])%list)
       else ((solutions ++ [m])%list, ambiguous))
    l (solutions, ambiguous)
  = if existsb (String.eqb prefix) ["??"; "?"]
    then (solutions, (ambiguous ++ map (pair prefix) l)%list)
    else ((solutions ++ l)%list, ambiguous).
Proof.
  revert solutions ambiguous; induction l as [|m l IH]; intros solutions ambiguous.
  - cbn [fold_left map]. rewrite !app_nil_r.
    destruct (existsb (String.eqb prefix) ["??"; "?"]); reflexivity.
  - cbn [fold_left]. destruct (existsb (String.eqb prefix) ["??"; "?"]) eqn:E.
    + rewrite IH. cbn [map]. rewrite <- app_assoc. reflexivity.
    + rewrite IH. rewrite <- app_assoc. reflexivity.
Qed.

(** [solutions] holds the SOLVED matches, [ambiguous] the tentative ones
    under "??" followed by the uncertain ones under "?". *)
Lemma classify_tiers (context : string) :
  classify context
  = (findall true solved_pattern context,
     (map (pair "??") (findall true tentative_pattern context)
      ++ map (pair "?") (findall true uncertain_pattern context))%list).
Proof.
  unfold classify, solution_patterns. cbn [fold_left].
  rewrite classify_tier.
  change (existsb (String.eqb "SOLVED") ["??"; "?"]) with false. cbv iota.
  rewrite classify_tier.
  change (existsb (String.eqb "??") ["??"; "?"]) with true. cbv iota.
  rewrite classify_tier. reflexivity.
Qed.











(** * Further properties of the correlator *)

Lemma prefix_refl (e : string) : prefix e e = true.
Proof.
  induction e as [|c e IH]; [reflexivity|].
  rewrite prefix_cons. destruct (ascii_dec c c); [exact IH|contradiction].
Qed.

Lemma prefix_append (e a b : string) :
  prefix e a = true -> prefix e (a ++ b) = true.
Proof.
  revert a; induction e as [|c e IH]; intros a H.
  - destruct (a ++ b); reflexivity.
  - destruct a as [|d a]; [discriminate H|].
    rewrite prefix_cons in H. cbn [append]. rewrite prefix_cons.
    destruct (ascii_dec c d); [auto|discriminate H].
Qed.

Lemma contains_append_l (e a b : string) :
  contains e a = true -> contains e (a ++ b) = true.
Proof.
  induction a as [|c a IH]; intros H.
  - cbn [contains] in H. rewrite orb_false_r in H.
    apply prefix_contains. apply (prefix_append e "" b H).
  - rewrite contains_cons in H. cbn [append]. rewrite contains_cons.
    apply orb_true_iff in H as [H|H].
    + pose proof (prefix_append e (String c a) b H) as Hp.
      cbn [append] in Hp. rewrite Hp. reflexivity.
    + rewrite (IH H). apply orb_true_r.
Qed.

Lemma contains_append_r (e a b : string) :
  contains e b = true -> contains e (a ++ b) = true.
Proof.
  induction a as [|c a IH]; intros H; [exact H|].
  cbn [append]. rewrite contains_cons, (IH H). apply orb_true_r.
Qed.

Lemma contains_join (e sep line : string) (ls : list string) :
  In line ls -> contains e line = true -> contains e (join sep ls) = true.
Proof.
  unfold join. induction ls as [|x ls IH]; intros Hin Hc; [destruct Hin|].
  destruct ls as [|y ls].
  - destruct Hin as [->|[]]. exact Hc.
  - cbn [concat]. destruct Hin as [->|Hin].
    + now apply contains_append_l.
    + apply contains_append_r, contains_append_r. now apply IH.
Qed.

Lemma length_slice {A} (a b : nat) (ls : list A) :
  b <= length ls -> length (slice a b ls) = b - a.
Proof.
  intros H. unfold slice. rewrite length_firstn, length_skipn. lia.
Qed.

Lemma nth_slice {A} (a b i : nat) (ls : list A) (d : A) :
  i < b - a -> nth i (slice a b ls) d = nth (a + i) ls d.
Proof.
  intros H. unfold slice. rewrite nth_firstn.
  destruct (Nat.ltb_spec i (b - a)); [apply nth_skipn|lia].
Qed.

Lemma in_slice {A} (a b i : nat) (ls : list A) (d : A) :
  a <= i < b -> b <= length ls -> In (nth i ls d) (slice a b ls).
Proof.
  intros Hi Hb. replace i with (a + (i - a)) by lia.
  rewrite <- (nth_slice a b (i - a) ls d) by lia.
  apply nth_In. rewrite length_slice by assumption. lia.
Qed.

Lemma first_some_in {A B} (f : A -> option B) (l : list A) (y : B) :
  first_some f l = Some y -> exists x, In x l /\ f x = Some y.
Proof.
  induction l as [|x l IH]; simpl; [discriminate|].
  destruct (f x) as [z|] eqn:E.
  - intros [= ->]. exists x. split; [now left|exact E].
  - intros H. destruct (IH H) as [x' [Hin Hx]]. exists x'. split; [now right|exact Hx].
Qed.

Lemma first_some_hit {A B} (f : A -> option B) (l : list A) (x : A) (y : B) :
  In x l -> f x = Some y -> exists y', first_some f l = Some y'.
Proof.
  induction l as [|a l IH]; intros Hin Hx; [destruct Hin|].
  simpl. destruct (f a) as [z|] eqn:E; [now exists z|].
  destruct Hin as [->|Hin]; [congruence|]. now apply IH.
Qed.

Lemma first_some_app {A B} (f : A -> option B) (l l' : list A) (y : B) :
  first_some f l = Some y -> first_some f (l ++ l') = Some y.
Proof.
  induction l as [|x l IH]; simpl; [discriminate|].
  destruct (f x); [auto|exact IH].
Qed.

Lemma in_indices_from {A} (p : A -> bool) (d : A) (l : list A) (k i : nat) :
  In i (indices_from p k l)
  <-> exists n, i = k + n /\ n < length l /\ p (nth n l d) = true.
Proof.
  revert k; induction l as [|x l IH]; intros k; cbn [indices_from length].
  - split; [intros []|intros [n [_ [H _]]]; lia].
  - split.
    + intros H.
      assert (Hrec : In i (indices_from p (S k) l) ->
                     exists n, i = k + n /\ n < S (length l)
                               /\ p (nth n (x :: l) d) = true).
      { intros Hin. apply IH in Hin as [n [-> [Hn Hp]]].
        exists (S n). repeat split; [lia|lia|exact Hp]. }
      destruct (p x) eqn:Hpx; [|auto].
      destruct H as [<-|H]; [|auto].
      exists 0. repeat split; [lia|lia|exact Hpx].
    + intros [n [-> [Hn Hp]]]. destruct n as [|n].
      * cbn [nth] in Hp. rewrite Hp, Nat.add_0_r. now left.
      * assert (Hin : In (k + S n) (indices_from p (S k) l)).
        { apply IH. exists n. repeat split; [lia|lia|exact Hp]. }
        destruct (p x); [now right|exact Hin].
Qed.

(** The occurrence indices are the lines that hold the error text. *)
Lemma in_error_indices (lines : list string) (e : string) (idx : nat) :
  In idx (error_indices lines e)
  <-> idx < length lines /\ contains e (nth idx lines "") = true.
Proof.
  unfold error_indices, indices.
  rewrite (in_indices_from (fun line => contains e line) "" lines 0 idx).
  split.
  - intros [n [-> [Hn Hp]]]. split; assumption.
  - intros [Hn Hp]. exists idx. repeat split; assumption.
Qed.

(** What a forward scan returns, read backwards. *)
Lemma forward_scan_some_inv (lines : list string) (idx window : nat) (s : string) :
  forward_scan lines idx window = Some s ->
  exists j i,
    idx < j < i /\ i < idx + window /\ i < length lines
    /\ action_line (nth j lines "") = true
    /\ resolution_line (nth i lines "") = true
    /\ s = join NL (slice j (i + 1) lines).
Proof.
  unfold forward_scan. intros H.
  apply first_some_in in H as [i [Hi H]]. apply in_range in Hi.
  destruct (resolution_line (nth i lines "")) eqn:Hres; [|discriminate].
  unfold backward_scan in H.
  apply first_some_in in H as [j [Hj H]]. apply in_range_down in Hj.
  destruct (action_line (nth j lines "")) eqn:Hact; [|discriminate].
  injection H as <-. exists j, i. repeat split; try assumption; lia.
Qed.

Lemma find_solution_some_inv (context e : string) (window : nat) (s : string) :
  find_solution_for_error context e window = Some s ->
  exists idx j i,
    contains e (nth idx (split nl context) "") = true
    /\ idx < j < i /\ i < idx + window /\ i < length (split nl context)
    /\ action_line (nth j (split nl context) "") = true
    /\ resolution_line (nth i (split nl context) "") = true
    /\ s = join NL (slice j (i + 1) (split nl context)).
Proof.
  unfold find_solution_for_error. intros H.
  apply first_some_in in H as [idx [Hidx H]].
  apply in_error_indices in Hidx as [_ Hc].
  apply forward_scan_some_inv in H as [j [i H]].
  exists idx, j, i. split; [exact Hc|exact H].
Qed.

(** The context handed to the append-log always shows the error text: a
    window of lines around a line that holds it, or the text itself. *)
Theorem error_context_holds_error (context e : string) (window : nat) :
  contains e (extract_error_context context e window) = true.
Proof.
  unfold extract_error_context.
  destruct (first_some _ _) as [r|] eqn:E.
  - apply first_some_in in E as [i [Hi E]]. apply in_range in Hi.
    destruct (contains e (nth i (split nl context) "")) eqn:Hc; [|discriminate].
    injection E as <-.
    apply (contains_join e NL (nth i (split nl context) "")); [|exact Hc].
    apply in_slice; lia.
  - apply prefix_contains, prefix_refl.
Qed.

(** [extract_error_context] uses the first line that holds the error
    text, later occurrences play no part: the context is that line with up
    to [window] lines on either side, cut at both ends of the transcript. *)
Theorem error_context_around_first_occurrence
        (context e : string) (window i : nat) :
  i < length (split nl context) ->
  contains e (nth i (split nl context) "") = true ->
  (forall j, j < i -> contains e (nth j (split nl context) "") = false) ->
  extract_error_context context e window
  = join NL (slice (i - window)
                   (Nat.min (length (split nl context)) (i + window + 1))
                   (split nl context)).
Proof.
  intros Hi Hc Hfirst. unfold extract_error_context, range.
  rewrite (first_some_seq_first _ _ 0 i
             (join NL (slice (i - window)
                             (Nat.min (length (split nl context)) (i + window + 1))
                             (split nl context)))).
  - reflexivity.
  - lia.
  - intros j Hj. rewrite Hfirst by lia. reflexivity.
  - rewrite Hc. reflexivity.
Qed.

Lemma error_context_around_first_occurrence_witness :
  extract_error_context far_fix_transcript "fixed" 1
  = join NL (slice (5 - 1)
                   (Nat.min (length (split nl far_fix_transcript)) (5 + 1 + 1))
                   (split nl far_fix_transcript)).
Proof.
  apply (error_context_around_first_occurrence far_fix_transcript "fixed" 1 5).
  - vm_compute. lia.
  - vm_compute. reflexivity.
  - intros j Hj.
    do 5 (destruct j as [|j]; [vm_compute; reflexivity|]). lia.
Defined.

(** A resolution snippet always runs from an action line to a
    resolution line: both lie after a line that holds the error text, the
    resolution line less than [window] lines after it, the action line
    strictly between the two. *)
Theorem snippet_runs_from_action_to_resolution
        (context e : string) (window : nat) (s : string) :
  find_solution_for_error context e window = Some s ->
  exists idx j i,
    contains e (nth idx (split nl context) "") = true
    /\ idx < j < i /\ i < idx + window /\ i < length (split nl context)
    /\ action_line (nth j (split nl context) "") = true
    /\ resolution_line (nth i (split nl context) "") = true
    /\ s = join NL (slice j (i + 1) (split nl context)).
Proof. exact (find_solution_some_inv context e window s). Qed.

Lemma snippet_runs_from_action_to_resolution_witness :
  exists idx j i,
    contains "error here. again" (nth idx (split nl late_action_transcript) "")
    = true
    /\ idx < j < i /\ i < idx + 5
    /\ i < length (split nl late_action_transcript)
    /\ action_line (nth j (split nl late_action_transcript) "") = true
    /\ resolution_line (nth i (split nl late_action_transcript) "") = true
    /\ "edit_file a.py" ++ NL ++ "solved"
       = join NL (slice j (i + 1) (split nl late_action_transcript)).
Proof.
  apply (snippet_runs_from_action_to_resolution
           late_action_transcript "error here. again" 5).
  vm_compute. reflexivity.
Defined.

(** With a window of 2 or less nothing is ever resolved: the only line
    the forward loop can reach is the one right after the error, and no
    line lies between the two for the backward loop. *)
Theorem narrow_window_resolves_nothing (context e : string) (window : nat) :
  window <= 2 -> find_solution_for_error context e window = None.
Proof.
  intros Hw. destruct (find_solution_for_error context e window) as [s|] eqn:E;
    [|reflexivity].
  apply find_solution_some_inv in E as [idx [j [i [_ [Hj [Hi _]]]]]]. lia.
Qed.

Lemma narrow_window_resolves_nothing_witness :
  find_solution_for_error late_action_transcript "error here. again" 2 = None.
Proof.
  apply (narrow_window_resolves_nothing
           late_action_transcript "error here. again" 2).
  lia.
Defined.

Lemma forward_scan_mono (lines : list string) (idx w w' : nat) (s : string) :
  w <= w' ->
  forward_scan lines idx w = Some s -> forward_scan lines idx w' = Some s.
Proof.
  intros Hw. unfold forward_scan, range.
  set (n := Nat.min (length lines) (idx + w) - (idx + 1)).
  set (n' := Nat.min (length lines) (idx + w') - (idx + 1)).
  replace n' with (n + (n' - n)) by (unfold n, n'; lia).
  rewrite seq_app. apply first_some_app.
Qed.

(** Widening the window never loses a resolution: an error resolved with
    some window is resolved with every larger one. *)
Theorem wider_window_keeps_resolution
        (context e : string) (w w' : nat) (s : string) :
  w <= w' ->
  find_solution_for_error context e w = Some s ->
  exists s', find_solution_for_error context e w' = Some s'.
Proof.
  intros Hw H. unfold find_solution_for_error in *.
  apply first_some_in in H as [idx [Hin H]].
  apply (first_some_hit _ _ idx s Hin).
  exact (forward_scan_mono _ idx w w' s Hw H).
Qed.

Lemma wider_window_keeps_resolution_witness :
  exists s',
    find_solution_for_error late_action_transcript "error here. again" 9
    = Some s'.
Proof.
  apply (wider_window_keeps_resolution
           late_action_transcript "error here. again" 5 9
           ("edit_file a.py" ++ NL ++ "solved")).
  - lia.
  - vm_compute. reflexivity.
Defined.

Lemma truthy_append_r (a b : string) : truthy b = true -> truthy (a ++ b) = true.
Proof. destruct a; [auto|reflexivity]. Qed.

(** A snippet is never the empty string, so the tests [if solution] and
    [if not find_solution_for_error(...)] tell exactly whether a snippet
    was found. *)
Theorem snippet_test_is_exact (context e : string) (window : nat) :
  is_true (find_solution_for_error context e window)
  = is_some (find_solution_for_error context e window).
Proof.
  destruct (find_solution_for_error context e window) as [s|] eqn:E;
    [|reflexivity].
  apply find_solution_some_inv in E
    as [idx [j [i [_ [Hj [_ [Hi [_ [_ ->]]]]]]]]].
  pose proof (length_slice j (i + 1) (split nl context)) as Hlen.
  destruct (slice j (i + 1) (split nl context)) as [|x [|y r]];
    [simpl in Hlen; lia|simpl in Hlen; lia|].
  cbn [is_true is_some]. unfold join. cbn [concat].
  apply truthy_append_r. reflexivity.
Qed.

(** The resolution status belongs to the error text, not to one
    occurrence: if the forward scan succeeds at any line that holds the
    text, the error is resolved, whatever happened at other lines. *)
Theorem any_occurrence_resolves
        (context e : string) (window idx : nat) (s : string) :
  idx < length (split nl context) ->
  contains e (nth idx (split nl context) "") = true ->
  forward_scan (split nl context) idx window = Some s ->
  exists s', find_solution_for_error context e window = Some s'.
Proof.
  intros Hidx Hc Hs. unfold find_solution_for_error.
  apply (first_some_hit _ _ idx s); [|exact Hs].
  apply in_error_indices. split; assumption.
Qed.

Lemma any_occurrence_resolves_witness :
  exists s', find_solution_for_error retry_transcript "error. stop" 5 = Some s'.
Proof.
  apply (any_occurrence_resolves retry_transcript "error. stop" 5 5
           ("run_terminal_cmd make" ++ NL ++ "solved")).
  - vm_compute. lia.
  - vm_compute. reflexivity.
  - vm_compute. reflexivity.
Defined.

(** Without an action marker in the transcript no error is ever
    resolved, whatever resolution phrases follow it. *)
Theorem no_action_marker_no_resolution (context e : string) (window : nat) :
  (forall line, In line (split nl context) -> action_line line = false) ->
  find_solution_for_error context e window = None.
Proof.
  intros Hno. destruct (find_solution_for_error context e window) as [s|] eqn:E;
    [|reflexivity].
  apply find_solution_some_inv in E
    as [idx [j [i [_ [Hj [_ [Hi [Hact _]]]]]]]].
  rewrite Hno in Hact; [discriminate|]. apply nth_In. lia.
Qed.

Lemma no_action_marker_no_resolution_witness :
  find_solution_for_error ("build error. stop" ++ NL ++ "I changed it" ++ NL
                           ++ "that worked") "error. stop" 5 = None.
Proof.
  apply no_action_marker_no_resolution.
  intros line Hin. vm_compute in Hin.
  destruct Hin as [<-|[<-|[<-|[]]]]; vm_compute; reflexivity.
Defined.

(** * Further properties of the extraction *)

Lemma count_stops_append (a b : string) :
  count_stops (a ++ b) = count_stops a + count_stops b.
Proof.
  induction a as [|c a IH]; [reflexivity|].
  cbn [append count_stops]. rewrite IH. lia.
Qed.

Lemma is_stop_lower (c : ascii) : is_stop (lower_char c) = is_stop c.
Proof. destruct c as [[] [] [] [] [] [] [] []]; vm_compute; reflexivity. Qed.

Lemma char_eq_stop (ic : bool) (p c : ascii) :
  char_eq ic p c = true -> is_stop c = is_stop p.
Proof.
  unfold char_eq. destruct ic.
  - intros H. apply Ascii.eqb_eq in H.
    rewrite <- (is_stop_lower c), <- (is_stop_lower p), H. reflexivity.
  - intros H. apply Ascii.eqb_eq in H. now subst.
Qed.

Lemma not_stop_class (ic : bool) (c : ascii) :
  in_class ic not_stop c = true -> is_stop c = false.
Proof.
  destruct ic; destruct c as [[] [] [] [] [] [] [] []]; vm_compute;
    intros H; reflexivity || discriminate H.
Qed.

Lemma stop_class (ic : bool) (c : ascii) :
  in_class ic stop c = true -> is_stop c = true.
Proof.
  destruct ic; destruct c as [[] [] [] [] [] [] [] []]; vm_compute;
    intros H; reflexivity || discriminate H.
Qed.

Lemma all_in_not_stop (ic : bool) (a : string) :
  all_in ic not_stop a = true -> count_stops a = 0.
Proof.
  induction a as [|c a IH]; [reflexivity|].
  cbn [all_in count_stops]. intros H. apply andb_true_iff in H as [Hc Ha].
  rewrite (not_stop_class ic c Hc), (IH Ha). reflexivity.
Qed.

(** The code points that fold to a letter hold no boundary, nor is the
    letter one. *)
Lemma fold_extra_no_stop (p : ascii) (e : string) :
  In e (fold_extra p) -> count_stops e = 0 /\ is_stop p = false.
Proof.
  unfold fold_extra. rewrite <- (is_stop_lower p).
  destruct (Ascii.eqb_spec (lower_char p) "i") as [->|_].
  { intros [<-|[<-|[]]]; split; reflexivity. }
  destruct (Ascii.eqb_spec (lower_char p) "s") as [->|_].
  { intros [<-|[]]; split; reflexivity. }
  destruct (Ascii.eqb_spec (lower_char p) "k") as [->|_].
  { intros [<-|[]]; split; reflexivity. }
  intros [].
Qed.

Lemma read_char_split (ic : bool) (p : ascii) (s s' : string) :
  read_char ic p s = Some s' ->
  exists m, s = m ++ s' /\ count_stops m = if is_stop p then 1 else 0.
Proof.
  destruct s as [|c s]; [discriminate|]. cbn [read_char].
  destruct (char_eq ic p c) eqn:E.
  - intros [= ->]. exists (String c ""). split; [reflexivity|].
    cbn [count_stops]. rewrite (char_eq_stop ic p c E).
    destruct (is_stop p); reflexivity.
  - destruct ic; [|discriminate]. intros H.
    apply first_some_in in H as [e [He H]]. apply strip_exact in H.
    destruct (fold_extra_no_stop p e He) as [H0 Hp].
    exists e. rewrite Hp. split; assumption.
Qed.

(** A literal read off the text: the text read has the boundaries of the
    literal, letter for letter. *)
Lemma exec_lit_split (ic : bool) (p t s' : string) :
  exec_lit ic p t = Some s' ->
  exists m, t = m ++ s' /\ count_stops m = count_stops p.
Proof.
  revert t; induction p as [|a p IH]; intros t H.
  - injection H as ->. now exists "".
  - cbn [exec_lit] in H.
    destruct (read_char ic a t) as [t1|] eqn:E; [|discriminate H].
    apply read_char_split in E as [m1 [-> H1]].
    destruct (IH t1 H) as [m [-> Hm]]. exists (m1 ++ m).
    split; [now rewrite append_assoc|].
    rewrite count_stops_append, H1, Hm. cbn [count_stops].
    destruct (is_stop a); reflexivity.
Qed.

Section Splits.

Variable ic : bool.

Lemma upto_loop_splits body (n : nat) :
  splits body -> splits (fun s g k => upto_loop body n s g k).
Proof.
  intros Hb. induction n as [|n IH]; intros s g k x H.
  - exists "", s, g. split; [reflexivity|exact H].
  - cbn [upto_loop] in H.
    destruct (body s g _) as [y|] eqn:E.
    + injection H as ->. apply Hb in E as [m1 [s1 [g1 [-> E]]]].
      apply IH in E as [m2 [s2 [g2 [-> E]]]].
      exists (m1 ++ m2), s2, g2. split; [now rewrite append_assoc|exact E].
    + exists "", s, g. split; [reflexivity|exact H].
Qed.

Lemma exec_splits (r : regex) : splits (exec ic r).
Proof.
  induction r as [w|cl|r1 IH1 r2 IH2|r1 IH1 r2 IH2|cl min|n r1 IH1|r1 IH1];
    intros s g k x H; cbn [exec] in H.
  - destruct (exec_lit ic w s) as [s'|] eqn:E; [|discriminate H].
    apply exec_lit_split in E as [m [-> _]]. now exists m, s', g.
  - destruct s as [|c s]; [discriminate H|].
    destruct (in_class ic cl c); [|discriminate H].
    now exists (String c ""), s, g.
  - apply IH1 in H as [m1 [s1 [g1 [-> H]]]].
    apply IH2 in H as [m2 [s2 [g2 [-> H]]]].
    exists (m1 ++ m2), s2, g2. split; [now rewrite append_assoc|exact H].
  - destruct (exec ic r1 s g k) as [y|] eqn:E.
    + injection H as ->. now apply IH1 in E.
    + now apply IH2 in H.
  - apply exec_rep_sound in H as [m [s' [-> [_ [_ H]]]]]. now exists m, s', g.
  - exact (upto_loop_splits (exec ic r1) n IH1 s g k x H).
  - apply IH1 in H as [m [s' [g' [-> H]]]].
    now exists m, s', (Some (consumed (m ++ s') s')).
Qed.

End Splits.

Lemma prefix_app_self (m s : string) : prefix m (m ++ s) = true.
Proof. apply (prefix_append m m s), prefix_refl. Qed.

(** Without a group, what an attempt records is read off the front of
    the text. *)
Lemma attempt_records_prefix (ic : bool) (r : regex) (ma : bool) (t : string)
      (m : result) :
  has_group r = false ->
  attempt ic r ma t = Some m -> prefix (recorded r t m) t = true.
Proof.
  intros Hg H. unfold attempt in H.
  apply exec_splits in H as [mm [s' [g' [-> H]]]].
  apply attempt_cont_inv in H. subst m.
  unfold recorded. rewrite Hg. cbn [fst]. rewrite consumed_app.
  apply prefix_app_self.
Qed.

(** A property of the recorded texts that is stable when the text grows
    at the front. *)
Lemma scan_forall_up (ic : bool) (r : regex) (P : string -> string -> Prop) :
  (forall t ma m, attempt ic r ma t = Some m -> P t (recorded r t m)) ->
  (forall c t x, P t x -> P (String c t) x) ->
  forall s skip, Forall (P s) (scan ic r s skip).
Proof.
  intros Hat Hup. induction s as [|c s IH]; intros skip.
  - destruct skip as [|n]; simpl; [|constructor].
    destruct (attempt ic r false "") as [m|] eqn:E; [|constructor].
    constructor; [exact (Hat _ _ _ E)|].
    destruct (attempt ic r true "") as [m'|] eqn:E'; [|constructor].
    constructor; [exact (Hat _ _ _ E')|constructor].
  - assert (Hnext : forall n, Forall (P (String c s)) (scan ic r s n)).
    { intros n. eapply Forall_impl; [|apply IH]. intros x. apply Hup. }
    destruct skip as [|n]; [|apply Hnext].
    cbn [scan].
    destruct (attempt ic r false (String c s)) as [m|] eqn:E; [|apply Hnext].
    destruct (String.length (String c s) - String.length (fst m)).
    + constructor; [exact (Hat _ _ _ E)|].
      destruct (attempt ic r true (String c s)) as [m'|] eqn:E'; [|apply Hnext].
      constructor; [exact (Hat _ _ _ E')|apply Hnext].
    + constructor; [exact (Hat _ _ _ E)|apply Hnext].
Qed.

Lemma findall_in_text (ic : bool) (r : regex) (s m : string) :
  has_group r = false -> In m (findall ic r s) -> contains m s = true.
Proof.
  intros Hg Hin.
  pose proof (scan_forall_up ic r (fun t x => contains x t = true)) as H.
  assert (Hall : Forall (fun x => contains x s = true) (scan ic r s 0)).
  { apply H.
    - intros t ma m' Hm. apply prefix_contains.
      exact (attempt_records_prefix ic r ma t m' Hg Hm).
    - intros c t x Hx. rewrite contains_cons, Hx. apply orb_true_r. }
  rewrite Forall_forall in Hall. exact (Hall m Hin).
Qed.

(** The marker an attempt of the frustration pattern records is read off
    the front of the text. *)
Lemma frustration_attempt_prefix (t : string) (ma : bool) (m : result) :
  attempt false frustration_pattern ma t = Some m ->
  prefix (recorded frustration_pattern t m) t = true.
Proof.
  unfold attempt, frustration_pattern.
  change (exec false (Seq (Grp ?a) ?b) t None ?k)
    with (exec false a t None
            (fun s' _ => exec false b s' (Some (consumed t s')) k)).
  intros H. apply exec_splits in H as [mm [s' [_ [-> H]]]].
  unfold star in H. cbn [exec] in H.
  apply exec_rep_sound in H as [_ [s'' [_ [_ [_ H]]]]].
  apply attempt_cont_inv in H. subst m.
  unfold recorded. cbn [has_group snd]. cbv iota.
  rewrite consumed_app. apply prefix_app_self.
Qed.

Lemma frustration_in_text (context m : string) :
  In m (frustration context) -> contains m context = true.
Proof.
  intros Hin.
  pose proof (scan_forall_up false frustration_pattern
                (fun t x => contains x t = true)) as H.
  assert (Hall : Forall (fun x => contains x context = true)
                        (scan false frustration_pattern context 0)).
  { apply H.
    - intros t ma m' Hm. apply prefix_contains.
      exact (frustration_attempt_prefix t ma m' Hm).
    - intros c t x Hx. rewrite contains_cons, Hx. apply orb_true_r. }
  rewrite Forall_forall in Hall. exact (Hall m Hin).
Qed.

(** Extraction is purely lexical: every error text, frustration marker
    and solution or attempt phrase is a piece of the transcript. *)
Theorem extracted_text_is_in_transcript (context m : string) :
  In m (errors context) \/ In m (frustration context)
  \/ In m (fst (classify context))
  \/ In m (map snd (snd (classify context))) ->
  contains m context = true.
Proof.
  rewrite classify_tiers. cbn [fst snd].
  rewrite map_app, !map_map. cbn [snd]. rewrite !map_id, in_app_iff.
  intros [H|[H|[H|[H|H]]]].
  - exact (findall_in_text true error_pattern context m eq_refl H).
  - exact (frustration_in_text context m H).
  - exact (findall_in_text true solved_pattern context m eq_refl H).
  - exact (findall_in_text true tentative_pattern context m eq_refl H).
  - exact (findall_in_text true uncertain_pattern context m eq_refl H).
Qed.

Lemma extracted_text_is_in_transcript_witness :
  contains ("let's try a different approach" ++ NL ++ ".") example_transcript
  = true.
Proof.
  apply (extracted_text_is_in_transcript example_transcript).
  right. right. right. vm_compute. left. reflexivity.
Defined.

Lemma in_error_words_no_stop (p : string) :
  In p ["error"; "exception"; "failed"; "failure"] -> count_stops p = 0.
Proof. intros [<-|[<-|[<-|[<-|[]]]]]; reflexivity. Qed.

(** What an attempt of the error pattern records: a vocabulary word, a
    run without boundary, one boundary, a run without boundary. *)
Lemma error_attempt_one_stop (t : string) (ma : bool) (m : result) :
  attempt true error_pattern ma t = Some m ->
  count_stops (recorded error_pattern t m) = 1.
Proof.
  unfold attempt, error_pattern, error_vocabulary, star.
  change (exec true (Seq ?v ?tl) t None ?k)
    with (exec true v t None (fun s' g' => exec true tl s' g' k)).
  intros H. apply alt_lits_sound in H as [p [s1 [Hin [Hl H]]]].
  apply exec_lit_split in Hl as [m0 [-> Hm0]].
  rewrite (in_error_words_no_stop p Hin) in Hm0.
  cbn [exec] in H.
  apply exec_rep_sound in H as [a [s2 [-> [Ha [_ H]]]]].
  destruct s2 as [|c s3]; [discriminate H|].
  destruct (in_class true stop c) eqn:Hc; [|discriminate H].
  apply exec_rep_sound in H as [b [s4 [-> [Hb [_ H]]]]].
  apply attempt_cont_inv in H. subst m.
  unfold recorded. cbn [has_group orb fst].
  replace (m0 ++ a ++ String c (b ++ s4))
    with ((m0 ++ a ++ String c b) ++ s4)
    by (rewrite !append_assoc; reflexivity).
  rewrite consumed_app.
  change (has_group (alt_lits "error" ["exception"; "failed"; "failure"])
          || false) with false. cbv iota.
  rewrite !count_stops_append. cbn [count_stops].
  rewrite Hm0, (all_in_not_stop true a Ha), (all_in_not_stop true b Hb),
    (stop_class true c Hc).
  reflexivity.
Qed.

Lemma error_has_one_stop (context e : string) :
  In e (errors context) -> count_stops e = 1.
Proof.
  intros Hin. unfold errors, findall in Hin.
  pose proof (scan_forall true error_pattern (fun x => count_stops x = 1)
                context error_attempt_one_stop 0) as Hall.
  rewrite Forall_forall in Hall. exact (Hall e Hin).
Qed.

(** Every extracted error text spans exactly two statements: it holds
    exactly one sentence or line boundary, a full stop or a newline. *)
Theorem error_spans_two_statements (context e : string) :
  In e (errors context) -> count_stops e = 1.
Proof. exact (error_has_one_stop context e). Qed.

Lemma error_spans_two_statements_witness : count_stops example_error = 1.
Proof.
  apply (error_spans_two_statements example_transcript example_error).
  vm_compute. left. reflexivity.
Defined.

Lemma prefix_split (e s : string) :
  prefix e s = true -> exists r, s = e ++ r.
Proof.
  revert s; induction e as [|c e IH]; intros s H.
  - now exists s.
  - destruct s as [|d s]; [discriminate H|]. rewrite prefix_cons in H.
    destruct (ascii_dec c d) as [->|]; [|discriminate H].
    destruct (IH s H) as [r ->]. now exists r.
Qed.

Lemma contains_count_stops (e s : string) :
  contains e s = true -> count_stops e <= count_stops s.
Proof.
  induction s as [|c s IH]; intros H.
  - cbn [contains] in H. rewrite orb_false_r in H.
    apply prefix_split in H as [r Hr]. destruct e; [simpl; lia|discriminate Hr].
  - rewrite contains_cons in H. apply orb_true_iff in H as [H|H].
    + apply prefix_split in H as [r ->]. rewrite count_stops_append. lia.
    + specialize (IH H). cbn [count_stops]. lia.
Qed.

(** An error mention that no full stop or newline follows is not
    extracted: a transcript without either yields no error at all. *)
Theorem unterminated_mention_is_no_error (context : string) :
  count_stops context = 0 -> errors context = [].
Proof.
  intros H0. destruct (errors context) as [|e es] eqn:E; [reflexivity|].
  assert (Hin : In e (errors context)) by (rewrite E; now left).
  pose proof (error_has_one_stop context e Hin) as H1.
  pose proof (findall_in_text true error_pattern context e eq_refl Hin) as Hc.
  apply contains_count_stops in Hc. lia.
Qed.

Lemma unterminated_mention_is_no_error_witness :
  errors "the build failed again" = [].
Proof.
  apply (unterminated_mention_is_no_error "the build failed again").
  vm_compute. reflexivity.
Defined.

Lemma split_nonempty (sep : ascii) (s : string) : split sep s <> [].
Proof.
  destruct s as [|c s]; simpl; [discriminate|].
  destruct (Ascii.eqb c sep); [discriminate|].
  destruct (split sep s); discriminate.
Qed.

(** A text without newline at the front of the transcript is at the front
    of its first line. *)
Lemma prefix_first_line (e s : string) :
  prefix e s = true -> has_char nl e = false ->
  exists l ls, split nl s = l :: ls /\ prefix e l = true.
Proof.
  revert s; induction e as [|a e IH]; intros s Hp He.
  - destruct (split nl s) as [|l ls] eqn:E; [now apply split_nonempty in E|].
    exists l, ls. split; [reflexivity|]. destruct l; reflexivity.
  - destruct s as [|c s]; [discriminate Hp|]. rewrite prefix_cons in Hp.
    destruct (ascii_dec a c) as [->|]; [|discriminate Hp].
    cbn [has_char] in He. apply orb_false_iff in He as [Hc He].
    destruct (IH s Hp He) as [l [ls [Hs Hl]]].
    cbn [split]. rewrite Ascii.eqb_sym, Hc, Hs.
    exists (String c l), ls. split; [reflexivity|].
    rewrite prefix_cons. destruct (ascii_dec c c); [exact Hl|contradiction].
Qed.

(** A piece of the transcript without newline lies in one of its lines. *)
Lemma contains_in_line (e s : string) :
  contains e s = true -> has_char nl e = false ->
  exists line, In line (split nl s) /\ contains e line = true.
Proof.
  intros Hc He. induction s as [|c s IH].
  - exists "". split; [now left|exact Hc].
  - rewrite contains_cons in Hc. apply orb_true_iff in Hc as [Hp|Hc].
    + destruct (prefix_first_line e (String c s) Hp He) as [l [ls [Hs Hl]]].
      exists l. rewrite Hs. split; [now left|now apply prefix_contains].
    + destruct (IH Hc) as [line [Hin Hline]]. cbn [split].
      destruct (Ascii.eqb c nl).
      * exists line. split; [now right|exact Hline].
      * destruct (split nl s) as [|l ls]; [destruct Hin|].
        destruct Hin as [<-|Hin].
        -- exists (String c l). split; [now left|].
           rewrite contains_cons, Hline. apply orb_true_r.
        -- exists line. split; [now right|exact Hline].
Qed.

(** An extracted error has an occurrence index exactly when its text
    holds no newline: the errors that end in the same line they start in
    are the only ones the correlator can ever resolve. *)
Theorem error_located_iff_single_line (context e : string) :
  In e (errors context) ->
  (error_indices (split nl context) e = [] <-> has_char nl e = true).
Proof.
  intros Hin. split.
  - intros Hnil. destruct (has_char nl e) eqn:He; [reflexivity|].
    pose proof (findall_in_text true error_pattern context e eq_refl Hin) as Hc.
    destruct (contains_in_line e context Hc He) as [line [Hl Hcl]].
    destruct (In_nth _ _ "" Hl) as [idx [Hidx Hnth]].
    assert (Hi : In idx (error_indices (split nl context) e)).
    { apply in_error_indices. split; [exact Hidx|]. rewrite Hnth. exact Hcl. }
    rewrite Hnil in Hi. destruct Hi.
  - intros He. unfold error_indices, indices. apply indices_from_nil.
    intros line Hl. exact (multiline_in_no_line context e line He Hl).
Qed.

Lemma error_located_iff_single_line_witness :
  error_indices (split nl far_fix_transcript) "error. retry" = []
  <-> has_char nl "error. retry" = true.
Proof.
  apply (error_located_iff_single_line far_fix_transcript "error. retry").
  vm_compute. left. reflexivity.
Defined.

(** * The error groups *)

Lemma count_of_incr (x y : string) (c : list (string * nat)) :
  count_of y (incr x c) = count_of y c + (if String.eqb y x then 1 else 0).
Proof.
  induction c as [|[z n] c IH]; cbn [incr count_of].
  - destruct (String.eqb y x); reflexivity.
  - destruct (String.eqb_spec x z) as [->|Hxz]; cbn [count_of].
    + destruct (String.eqb y z); lia.
    + destruct (String.eqb_spec y z) as [->|Hyz]; [|exact IH].
      destruct (String.eqb_spec z x); [congruence|lia].
Qed.

Lemma keys_incr (x y : string) (c : list (string * nat)) :
  In y (map fst (incr x c)) <-> y = x \/ In y (map fst c).
Proof.
  induction c as [|[z n] c IH]; cbn [incr map fst In].
  - intuition.
  - destruct (String.eqb_spec x z) as [->|Hxz]; cbn [map fst In].
    + intuition.
    + rewrite IH. intuition.
Qed.

Lemma nodup_incr (x : string) (c : list (string * nat)) :
  NoDup (map fst c) -> NoDup (map fst (incr x c)).
Proof.
  induction c as [|[z n] c IH]; cbn [incr map fst]; intros H.
  - constructor; [intros []|constructor].
  - inversion H as [|? ? Hz Hc]; subst.
    destruct (String.eqb_spec x z) as [->|Hxz]; cbn [map fst].
    + constructor; assumption.
    + constructor; [|auto]. rewrite keys_incr. intros [->|Hin]; auto.
Qed.

Lemma positive_incr (x : string) (c : list (string * nat)) :
  Forall (fun e => 1 <= snd e) c -> Forall (fun e => 1 <= snd e) (incr x c).
Proof.
  induction c as [|[z n] c IH]; cbn [incr]; intros H.
  - repeat constructor.
  - inversion H; subst. destruct (String.eqb x z); constructor; cbn in *; auto; lia.
Qed.

Lemma fold_incr (l : list string) :
  forall c,
    NoDup (map fst c) -> Forall (fun e => 1 <= snd e) c ->
    NoDup (map fst (fold_left (fun c x => incr x c) l c))
    /\ Forall (fun e => 1 <= snd e) (fold_left (fun c x => incr x c) l c)
    /\ (forall y, count_of y (fold_left (fun c x => incr x c) l c)
                  = count_of y c + count_occ string_dec l y)
    /\ (forall y, In y (map fst (fold_left (fun c x => incr x c) l c))
                  <-> In y (map fst c) \/ In y l).
Proof.
  induction l as [|x l IH]; intros c Hnd Hpos; cbn [fold_left].
  - split; [exact Hnd|]. split; [exact Hpos|].
    split; [intros y; cbn [count_occ]; lia|intros y; cbn [In]; intuition].
  - destruct (IH (incr x c) (nodup_incr x c Hnd) (positive_incr x c Hpos))
      as [H1 [H2 [H3 H4]]].
    split; [exact H1|]. split; [exact H2|]. split.
    + intros y. rewrite H3. rewrite count_of_incr. cbn [count_occ].
      destruct (string_dec x y) as [->|Hne].
      * rewrite String.eqb_refl. lia.
      * destruct (String.eqb_spec y x); [congruence|lia].
    + intros y. rewrite H4. rewrite keys_incr. cbn [In]. intuition.
Qed.

Lemma in_count_of (c : list (string * nat)) (x : string) (n : nat) :
  NoDup (map fst c) ->
  (In (x, n) c <-> In x (map fst c) /\ count_of x c = n).
Proof.
  induction c as [|[z k] c IH]; cbn [map fst In count_of]; intros H.
  - intuition.
  - inversion H as [|? ? Hz Hc]; subst. specialize (IH Hc).
    destruct (String.eqb_spec x z) as [->|Hxz].
    + split.
      * intros [[= ->]|Hin]; [auto|].
        exfalso. apply Hz. apply in_map_iff. now exists (z, n).
      * intros [_ ->]. now left.
    + rewrite IH. split.
      * intros [[= -> _]|H']; [congruence|]. intuition.
      * intros [[->|H1] H2]; [congruence|]. right. auto.
Qed.

Lemma in_insert_by_count (e e' : string * nat) (l : list (string * nat)) :
  In e' (insert_by_count e l) <-> e' = e \/ In e' l.
Proof.
  induction l as [|a l IH]; cbn [insert_by_count In].
  - intuition.
  - destruct (Nat.ltb (snd e) (snd a)); cbn [In]; [rewrite IH|]; intuition.
Qed.

Lemma in_most_common (e : string * nat) (c : list (string * nat)) :
  In e (most_common c) <-> In e c.
Proof.
  unfold most_common. induction c as [|a c IH]; cbn [fold_right In].
  - reflexivity.
  - rewrite in_insert_by_count, IH. intuition.
Qed.

Lemma descending_insert (e : string * nat) (l : list (string * nat)) :
  descending (map snd l) = true ->
  descending (map snd (insert_by_count e l)) = true.
Proof.
  induction l as [|a l IH]; intros H; [reflexivity|].
  cbn [insert_by_count]. destruct (Nat.ltb_spec (snd e) (snd a)) as [Hlt|Hge].
  - cbn [map descending] in *. apply andb_true_iff in H as [Ha Hl].
    specialize (IH Hl). rewrite IH, andb_true_r.
    destruct l as [|b l]; cbn [insert_by_count map].
    + apply Nat.leb_le. lia.
    + destruct (Nat.ltb (snd e) (snd b)); cbn [map]; [exact Ha|].
      apply Nat.leb_le. lia.
  - cbn [map descending] in *. rewrite H, andb_true_r. apply Nat.leb_le. lia.
Qed.

Lemma nodup_insert_by_count (e : string * nat) (l : list (string * nat)) :
  ~ In (fst e) (map fst l) -> NoDup (map fst l) ->
  NoDup (map fst (insert_by_count e l)).
Proof.
  induction l as [|a l IH]; cbn [insert_by_count map]; intros He H.
  - constructor; [intros []|constructor].
  - inversion H as [|? ? Ha Hl]; subst.
    destruct (Nat.ltb (snd e) (snd a)); cbn [map].
    + constructor.
      * intros Hin. apply in_map_iff in Hin as [p [Hp Hin]].
        apply in_insert_by_count in Hin as [->|Hin].
        -- apply He. left. now rewrite Hp.
        -- apply Ha. rewrite <- Hp. now apply in_map.
      * apply IH; [|exact Hl]. intros Hin. apply He. now right.
    + constructor; [exact He|exact H].
Qed.

Lemma nodup_most_common (c : list (string * nat)) :
  NoDup (map fst c) -> NoDup (map fst (most_common c)).
Proof.
  induction c as [|a c IH]; intros H; [constructor|].
  inversion H as [|? ? Ha Hc]; subst.
  change (most_common (a :: c)) with (insert_by_count a (most_common c)).
  apply nodup_insert_by_count; [|auto].
  intros Hin. apply Ha. apply in_map_iff in Hin as [p [Hp Hin]].
  apply (proj1 (in_most_common p c)) in Hin. rewrite <- Hp. now apply in_map.
Qed.

Lemma counter_facts (l : list string) :
  NoDup (map fst (Counter l))
  /\ Forall (fun e => 1 <= snd e) (Counter l)
  /\ (forall y, count_of y (Counter l) = count_occ string_dec l y)
  /\ (forall y, In y (map fst (Counter l)) <-> In y l).
Proof.
  destruct (fold_incr l [] (NoDup_nil _) (Forall_nil _)) as [H1 [H2 [H3 H4]]].
  fold (Counter l) in H1, H2, H3, H4. repeat split; auto.
  - intros Hy. apply H4 in Hy as [[]|Hy]. exact Hy.
  - intros Hy. apply H4. now right.
Qed.

(** Errors are grouped by exact text: each text that was matched forms
    one group, and the count of a group is the number of matches with
    that very text. *)
Theorem error_groups_count_occurrences (l : list string) (e : string) (n : nat) :
  NoDup (map fst (most_common (Counter l)))
  /\ (In (e, n) (most_common (Counter l))
      <-> In e l /\ n = count_occ string_dec l e).
Proof.
  destruct (counter_facts l) as [H1 [_ [H3 H4]]]. split.
  - now apply nodup_most_common.
  - rewrite in_most_common, (in_count_of _ e n H1), H4, H3.
    intuition.
Qed.

(** The groups are reported from the most frequent to the least
    frequent. *)
Theorem error_groups_most_frequent_first (l : list string) :
  descending (map snd (most_common (Counter l))) = true.
Proof.
  unfold most_common.
  induction (Counter l) as [|a c IH]; [reflexivity|].
  cbn [fold_right]. now apply descending_insert.
Qed.

(** * Further properties of the report *)

Lemma resolver_total (w : World) :
  exists context, get_conversation_context w = Ret context.
Proof.
  unfold get_conversation_context, except_pass, obind.
  destruct (env_CURSOR_CONTEXT w) as [[|c cs]|];
    destruct (stdin_ready w) as [[|]|];
    destruct (stdin_read w); destruct (history_read w);
    eexists; reflexivity.
Qed.

Section Respects.

Variable R : Outputs -> Outputs -> Prop.
Hypothesis R_refl : forall o, R o o.
Hypothesis R_trans : forall o1 o2 o3, R o1 o2 -> R o2 o3 -> R o1 o3.

Lemma respects_ret {A} (a : A) : respects R (ret a).
Proof. intros o. apply R_refl. Qed.

Lemma respects_raise {A} (e : exn) : respects R (@raise A e).
Proof. intros o. apply R_refl. Qed.

Lemma respects_lift {A} (x : outcome A) : respects R (lift x).
Proof. intros o. apply R_refl. Qed.

Lemma respects_bind {A B} (m : M A) (k : A -> M B) :
  respects R m -> (forall a, respects R (k a)) -> respects R (bind m k).
Proof.
  intros Hm Hk o. unfold bind. specialize (Hm o).
  destruct (m o) as [o' [a|e]]; cbn [fst] in *.
  - exact (R_trans _ _ _ Hm (Hk a o')).
  - exact Hm.
Qed.

Lemma respects_when (b : bool) (m : M unit) :
  respects R m -> respects R (when b m).
Proof. destruct b; [auto|intros _; apply respects_ret]. Qed.

Lemma respects_for {A} (l : list A) (body : A -> M unit) :
  (forall x, respects R (body x)) -> respects R (for_ l body).
Proof.
  intros H. induction l as [|x l IH]; cbn [for_]; [apply respects_ret|].
  apply respects_bind; [apply H|intros _; exact IH].
Qed.

Lemma respects_for_var (v0 : pyval) (l : list pyval) (body : pyval -> M unit) :
  (forall x, respects R (body x)) -> respects R (for_var v0 l body).
Proof.
  intros H. revert v0; induction l as [|x l IH]; intros v0; cbn [for_var];
    [apply respects_ret|].
  apply respects_bind; [apply H|intros _; apply IH].
Qed.

Lemma respects_try_pass (m : M unit) : respects R m -> respects R (try_pass m).
Proof.
  intros Hm o. unfold try_pass. specialize (Hm o).
  destruct (m o) as [o' [a|e]]; exact Hm.
Qed.

(** A method call [x.write(...)]: the method is looked up, then used. *)
Lemma respects_getattr_bind {B} (x : pyval) (k : (string -> M unit) -> M B) :
  (forall h, respects R (k (write h))) ->
  respects R (bind (getattr_write x) k).
Proof.
  intros H. destruct x as [h|s].
  - intros o. exact (H h o).
  - intros o. apply R_refl.
Qed.

Lemma respects_index0 (x : pyval) : respects R (index0 x).
Proof. destruct x as [h|[|c s]]; intros o; apply R_refl. Qed.

End Respects.

Lemma log_grows_refl (o : Outputs) : log_grows o o.
Proof. exists []. now rewrite app_nil_r. Qed.

Lemma log_grows_trans (o1 o2 o3 : Outputs) :
  log_grows o1 o2 -> log_grows o2 o3 -> log_grows o1 o3.
Proof.
  intros [b1 H1] [b2 H2]. exists (b1 ++ b2)%list.
  now rewrite H2, H1, app_assoc.
Qed.

Lemma console_kept_refl (o : Outputs) : console_kept o o.
Proof. reflexivity. Qed.

Lemma console_kept_trans (o1 o2 o3 : Outputs) :
  console_kept o1 o2 -> console_kept o2 o3 -> console_kept o1 o3.
Proof. unfold console_kept. congruence. Qed.

Lemma log_grows_print (s : string) : respects log_grows (print s).
Proof. intros o. exists []. cbn. now rewrite app_nil_r. Qed.

Lemma log_grows_write (h : handle) (s : string) : respects log_grows (write h s).
Proof.
  intros o. destruct h; cbn; [now exists [s]|].
  exists []. cbn. now rewrite app_nil_r.
Qed.

Lemma log_grows_open_summary (t : bool) : respects log_grows (open SUMMARY_FILE t).
Proof. intros o. destruct t; exists []; cbn; now rewrite app_nil_r. Qed.

Lemma console_kept_write (h : handle) (s : string) :
  respects console_kept (write h s).
Proof. intros o. destruct h; reflexivity. Qed.

Lemma console_kept_open (h : handle) (t : bool) :
  respects console_kept (open h t).
Proof. intros o. destruct h, t; reflexivity. Qed.

(** The steps of the two file writers, for a relation that every
    [write] and every [open] of the snapshot respects. *)
Ltac respects_steps Hrefl Htrans Hwrite Hopen :=
  repeat first
    [ apply (respects_getattr_bind _ Hrefl); intros ?
    | apply Hwrite
    | apply Hopen
    | apply (respects_when _ Hrefl)
    | apply (respects_for _ Hrefl Htrans); intros ?
    | apply (respects_for_var _ Hrefl Htrans); intros ?
    | apply (respects_try_pass _)
    | apply (respects_index0 _ Hrefl)
    | apply (respects_lift _ Hrefl)
    | apply (respects_ret _ Hrefl)
    | apply (respects_bind _ Htrans); [|intros ?] ].

Ltac log_steps :=
  respects_steps log_grows_refl log_grows_trans log_grows_write
                 log_grows_open_summary.

Ltac console_steps :=
  respects_steps console_kept_refl console_kept_trans console_kept_write
                 console_kept_open.

Lemma log_grows_error_entry (context : string) (f : pyval) (ec : string * nat) :
  respects log_grows (write_error_entry context f ec).
Proof.
  unfold write_error_entry.
  destruct (find_solution_for_error context (fst ec) 5) as [[|c cs]|]; log_steps.
Qed.

Lemma log_grows_frustration (markers : list string) (f : pyval) :
  respects log_grows (write_frustration markers f).
Proof. unfold write_frustration. destruct (nonempty markers); log_steps. Qed.

Lemma log_grows_snapshot (w : World) (context : string)
      (solutions : list string) (ambiguous : list (string * string))
      (most_common_errors : list (string * nat)) :
  respects log_grows
           (write_snapshot w context solutions ambiguous most_common_errors).
Proof. unfold write_snapshot, snapshot_body, write_external. log_steps. Qed.

(** Opening the append-log and writing a first text [s] to it: whatever
    follows, the log is its old content, then [s], then more. *)
Lemma log_head {A} (s : string) (k : pyval -> M A) :
  respects log_grows (k (File BUGFIXES_FILE)) ->
  forall o, exists b,
    bugfixes_md
      (fst (bind (open BUGFIXES_FILE false)
                 (fun f => bind (getattr_write f)
                             (fun wr => bind (wr s) (fun _ => k f))) o))
    = (bugfixes_md o ++ s :: b)%list.
Proof.
  intros H o.
  assert (E : bind (open BUGFIXES_FILE false)
                   (fun f => bind (getattr_write f)
                               (fun wr => bind (wr s) (fun _ => k f))) o
              = k (File BUGFIXES_FILE) (add (OnDisk BUGFIXES_FILE) [s] o))
    by reflexivity.
  rewrite E. destruct (H (add (OnDisk BUGFIXES_FILE) [s] o)) as [b Hb].
  exists b. rewrite Hb. cbn. rewrite <- app_assoc. reflexivity.
Qed.

Lemma write_bugfixes_head (w : World) (context : string)
      (markers solutions : list string) (ambiguous : list (string * string))
      (most_common_errors : list (string * nat)) (o : Outputs) :
  exists b,
    bugfixes_md (fst (write_bugfixes w context markers solutions ambiguous
                                     most_common_errors o))
    = (bugfixes_md o ++ session_heading w :: b)%list.
Proof.
  unfold write_bugfixes, session_heading. apply log_head.
  apply (respects_bind _ log_grows_trans).
  - destruct (nonempty most_common_errors || nonempty markers);
      [|apply (respects_ret _ log_grows_refl)].
    apply (respects_getattr_bind _ log_grows_refl); intros h.
    apply (respects_bind _ log_grows_trans); [apply log_grows_write|intros _].
    apply (respects_bind _ log_grows_trans).
    + apply (respects_for _ log_grows_refl log_grows_trans). intros ec.
      apply log_grows_error_entry.
    + intros _. apply log_grows_frustration.
  - intros f. log_steps.
Qed.

(** The append-log is only ever appended to: after a run, whether it
    completes or not, the file is its old content followed by the dated
    session heading and possibly more. *)
Theorem append_log_only_grows (w : World) :
  exists b,
    bugfixes_md (fst (run w))
    = (old_bugfixes w ++ session_heading w :: b)%list.
Proof.
  destruct (resolver_total w) as [context Hctx].
  unfold run, summarize_session. unfold bind at 1. unfold lift. rewrite Hctx.
  destruct (classify context) as [solutions ambiguous].
  match goal with
  | |- context [bind (print_summary ?w ?c ?s ?a ?m) ?k ?o] =>
      destruct (bind_emits (fun _ => True) Console
                  (print_summary w c s a m) k o
                  (print_summary_emits w c s a m)) as [pc [_ Ep]];
      rewrite Ep; clear Ep
  end.
  unfold bind at 1.
  match goal with
  | |- context [write_bugfixes ?w ?c ?f ?s ?a ?m ?o] =>
      destruct (write_bugfixes_head w c f s a m o) as [b Hb];
      destruct (write_bugfixes w c f s a m o) as [o2 [u|e]]
  end; cbn [fst] in Hb.
  - match goal with
    | |- context [write_snapshot ?w ?c ?s ?a ?m ?o] =>
        destruct (log_grows_snapshot w c s a m o) as [b' Hb']
    end.
    exists (b ++ b')%list. rewrite Hb', Hb. cbn.
    rewrite <- app_assoc. reflexivity.
  - exists b. cbn [fst]. rewrite Hb. reflexivity.
Qed.

Section Writes.

Variable sf : surface.

Lemma writes_ret : writes sf [] (ret tt).
Proof. intros o. now rewrite add_nil. Qed.

Lemma writes_bind (c1 c2 : list string) (m : M unit) (k : unit -> M unit) :
  writes sf c1 m -> (forall u, writes sf c2 (k u)) ->
  writes sf (c1 ++ c2) (bind m k).
Proof.
  intros Hm Hk o. unfold bind. rewrite Hm, Hk, add_add. reflexivity.
Qed.

Lemma writes_when (c : list string) (b : bool) (m : M unit) :
  writes sf c m -> writes sf (if b then c else []) (when b m).
Proof. destruct b; [auto|intros _; apply writes_ret]. Qed.

Lemma writes_for {A} (f : A -> list string) (l : list A) (body : A -> M unit) :
  (forall x, writes sf (f x) (body x)) ->
  writes sf (flat_map f l) (for_ l body).
Proof.
  intros H. induction l as [|x l IH]; cbn [flat_map for_]; [apply writes_ret|].
  apply writes_bind; [apply H|intros _; exact IH].
Qed.

Lemma some_ret : writes_some sf (ret tt).
Proof. exists []. apply writes_ret. Qed.

Lemma some_bind (m : M unit) (k : unit -> M unit) :
  writes_some sf m -> (forall u, writes_some sf (k u)) ->
  writes_some sf (bind m k).
Proof.
  intros [c1 H1] Hk. destruct (Hk tt) as [c2 H2]. exists (c1 ++ c2)%list.
  apply writes_bind; [exact H1|intros []; exact H2].
Qed.

Lemma some_when (b : bool) (m : M unit) :
  writes_some sf m -> writes_some sf (when b m).
Proof. destruct b; [auto|intros _; apply some_ret]. Qed.

Lemma some_for {A} (l : list A) (body : A -> M unit) :
  (forall x, writes_some sf (body x)) -> writes_some sf (for_ l body).
Proof.
  intros H. induction l as [|x l IH]; cbn [for_]; [apply some_ret|].
  apply some_bind; [apply H|intros _; exact IH].
Qed.

Lemma some_bind_ret {A} (a : A) (k : A -> M unit) :
  writes_some sf (k a) -> writes_some sf (bind (ret a) k).
Proof. intros [c H]. exists c. intros o. exact (H o). Qed.

Lemma some_bind_assoc {A B} (m : M A) (k : A -> M B) (g : B -> M unit) :
  writes_some sf (bind m (fun a => bind (k a) g)) ->
  writes_some sf (bind (bind m k) g).
Proof.
  intros [c H]. exists c. intros o. rewrite <- (H o). unfold bind.
  destruct (m o) as [o' [a|e]]; reflexivity.
Qed.

(** A method call on a file: the method is [write] on its handle. *)
Lemma some_method (h : handle) (k : (string -> M unit) -> M unit) :
  writes_some sf (k (write h)) ->
  writes_some sf (bind (getattr_write (File h)) k).
Proof. intros [c H]. exists c. intros o. exact (H o). Qed.

End Writes.

Lemma writes_print (s : string) : writes Console [s] (print s).
Proof. intros o. reflexivity. Qed.

Lemma some_write (h : handle) (s : string) : writes_some (OnDisk h) (write h s).
Proof. exists [s]. intros o. destruct h; reflexivity. Qed.

Lemma some_external (title : string) (tool : outcome string) :
  writes_some (OnDisk SUMMARY_FILE)
              (write_external (File SUMMARY_FILE) title tool).
Proof.
  unfold write_external, try_pass, bind, lift.
  destruct tool as [out|e]; [destruct (truthy out)|].
  - exists [title ++ NL; "```" ++ NL ++ out ++ "```" ++ NL ++ NL].
    intros [oc ob os]. cbn. rewrite <- app_assoc. reflexivity.
  - exists []. intros [oc ob os]. cbn. rewrite app_nil_r. reflexivity.
  - exists []. intros [oc ob os]. cbn. rewrite app_nil_r. reflexivity.
Qed.

Ltac some_steps :=
  repeat first
    [ apply some_external
    | apply some_write
    | apply some_method
    | apply some_when
    | apply some_for; intros ?
    | apply some_ret
    | apply some_bind; [|intros _] ].

(** What [print_summary] prints, and that the Outstanding Issues heading
    and the first item of Next Steps are among it as soon as there is an
    error group. *)
Lemma print_summary_writes (w : World) (context : string)
      (solutions : list string) (ambiguous : list (string * string))
      (most_common_errors : list (string * nat)) :
  exists c,
    writes Console c
           (print_summary w context solutions ambiguous most_common_errors)
    /\ (most_common_errors <> [] ->
        In console_issues_header c /\ In "1. Address remaining errors" c).
Proof.
  eexists. split.
  - unfold print_summary.
    repeat first
      [ eapply writes_print
      | eapply writes_when
      | eapply writes_for; intros ?
      | eapply writes_bind; [|intros _] ].
  - intros Hne. destruct most_common_errors as [|e es]; [contradiction|].
    cbn [nonempty]. rewrite !in_app_iff. cbn [In]. intuition.
Qed.

Lemma some_error_entry (context : string) (ec : string * nat) :
  writes_some (OnDisk BUGFIXES_FILE)
              (write_error_entry context (File BUGFIXES_FILE) ec).
Proof.
  unfold write_error_entry.
  destruct (find_solution_for_error context (fst ec) 5) as [[|c cs]|];
    some_steps.
Qed.

(** Without frustration markers the append-log entry is written to its
    end. *)
Lemma some_bugfixes (w : World) (context : string)
      (solutions : list string) (ambiguous : list (string * string))
      (most_common_errors : list (string * nat)) :
  writes_some (OnDisk BUGFIXES_FILE)
              (write_bugfixes w context [] solutions ambiguous
                              most_common_errors).
Proof.
  unfold write_bugfixes, write_frustration. cbn [nonempty orb].
  rewrite orb_false_r.
  assert (Hopen : forall k : pyval -> M unit,
             writes_some (OnDisk BUGFIXES_FILE) (k (File BUGFIXES_FILE)) ->
             writes_some (OnDisk BUGFIXES_FILE)
                         (bind (open BUGFIXES_FILE false) k)).
  { intros k [c H]. exists c. intros o. exact (H o). }
  apply Hopen. apply some_method.
  apply some_bind; [apply some_write|intros _].
  destruct (nonempty most_common_errors).
  - apply some_bind_assoc, some_method, some_bind_assoc.
    apply some_bind; [apply some_write|intros _].
    apply some_bind_assoc.
    apply some_bind;
      [apply some_for; intros ec; apply some_error_entry|intros _].
    apply some_bind_ret. some_steps.
  - apply some_bind_ret. some_steps.
Qed.

Lemma some_snapshot_body (w : World) (context : string)
      (solutions : list string) (ambiguous : list (string * string))
      (most_common_errors : list (string * nat)) :
  writes_some (OnDisk SUMMARY_FILE)
              (snapshot_body w context solutions ambiguous most_common_errors
                             (File SUMMARY_FILE)).
Proof. unfold snapshot_body. some_steps. Qed.

(** Without frustration markers the run completes: it appends to the
    console and to the append-log, and the snapshot holds what it wrote
    and nothing else. *)
Lemma run_completes (w : World) (context : string) :
  get_conversation_context w = Ret context ->
  frustration context = [] ->
  exists c1 c2 c3, forall o,
    summarize_session w o
    = ({| console := console o ++ c1;
          bugfixes_md := bugfixes_md o ++ c2;
          summary_md := c3 |}, Ret tt).
Proof.
  intros Hctx Hfr.
  destruct (classify context) as [solutions ambiguous] eqn:Hcl.
  destruct (print_summary_writes w context solutions ambiguous
              (most_common (Counter (errors context)))) as [c1 [H1 _]].
  destruct (some_bugfixes w context solutions ambiguous
              (most_common (Counter (errors context)))) as [c2 H2].
  destruct (some_snapshot_body w context solutions ambiguous
              (most_common (Counter (errors context)))) as [c3 H3].
  exists c1, c2, c3. intros o. unfold summarize_session.
  unfold bind at 1. unfold lift. rewrite Hctx, Hfr, Hcl.
  unfold bind at 1. rewrite H1.
  unfold bind at 1. rewrite H2.
  unfold write_snapshot. unfold bind at 1. cbn [open add console
    bugfixes_md summary_md].
  rewrite H3. reflexivity.
Qed.

(** The snapshot is overwritten, not extended: when the run completes,
    what the file holds afterwards does not depend on what it held
    before. *)
Theorem snapshot_forgets_old_content
        (w : World) (context : string) (content : list string) :
  get_conversation_context w = Ret context ->
  frustration context = [] ->
  summary_md (fst (run (with_old_summary w content)))
  = summary_md (fst (run w)).
Proof.
  intros Hctx Hfr.
  destruct (run_completes w context Hctx Hfr) as [c1 [c2 [c3 H]]].
  unfold run.
  change (summarize_session (with_old_summary w content))
    with (summarize_session w).
  rewrite !H. reflexivity.
Qed.

Lemma snapshot_forgets_old_content_witness :
  summary_md (fst (run (with_old_summary (world_of example_transcript)
                                         ["stale"])))
  = summary_md (fst (run (world_of example_transcript))).
Proof.
  apply (snapshot_forgets_old_content (world_of example_transcript)
                                      example_transcript ["stale"]).
  - reflexivity.
  - vm_compute. reflexivity.
Defined.

Lemma console_kept_error_entry (context : string) (f : pyval) (ec : string * nat) :
  respects console_kept (write_error_entry context f ec).
Proof.
  unfold write_error_entry.
  destruct (find_solution_for_error context (fst ec) 5) as [[|c cs]|];
    console_steps.
Qed.

Lemma console_kept_files (w : World) (context : string)
      (markers solutions : list string) (ambiguous : list (string * string))
      (most_common_errors : list (string * nat)) :
  respects console_kept
    (bind (write_bugfixes w context markers solutions ambiguous
                          most_common_errors)
          (fun _ => write_snapshot w context solutions ambiguous
                                   most_common_errors)).
Proof.
  apply (respects_bind _ console_kept_trans).
  - unfold write_bugfixes.
    apply (respects_bind _ console_kept_trans); [apply console_kept_open|].
    intros f. apply (respects_getattr_bind _ console_kept_refl). intros h.
    apply (respects_bind _ console_kept_trans);
      [apply console_kept_write|intros _].
    apply (respects_bind _ console_kept_trans).
    + destruct (nonempty most_common_errors || nonempty markers);
        [|apply (respects_ret _ console_kept_refl)].
      apply (respects_getattr_bind _ console_kept_refl); intros h'.
      apply (respects_bind _ console_kept_trans);
        [apply console_kept_write|intros _].
      apply (respects_bind _ console_kept_trans).
      * apply (respects_for _ console_kept_refl console_kept_trans).
        intros ec. apply console_kept_error_entry.
      * intros _. unfold write_frustration.
        destruct (nonempty markers); console_steps.
    + intros f'. console_steps.
  - intros _. unfold write_snapshot, snapshot_body, write_external.
    console_steps.
Qed.

Lemma errors_make_groups (l : list string) :
  l <> [] -> most_common (Counter l) <> [].
Proof.
  intros Hne Hnil. destruct l as [|x l]; [contradiction|].
  destruct (counter_facts (x :: l)) as [_ [_ [_ H4]]].
  assert (Hx : In x (map fst (Counter (x :: l)))) by (apply H4; now left).
  apply in_map_iff in Hx as [p [_ Hp]].
  apply in_most_common in Hp. rewrite Hnil in Hp. destruct Hp.
Qed.

(** The Outstanding Issues heading and the step "Address remaining
    errors" are printed as soon as one error was extracted, also when
    every error was resolved, and also when the run aborts later. *)
Theorem issues_heading_whenever_errors (w : World) (context : string) :
  get_conversation_context w = Ret context ->
  errors context <> [] ->
  In console_issues_header (console (fst (run w)))
  /\ In "1. Address remaining errors" (console (fst (run w))).
Proof.
  intros Hctx Herr.
  destruct (classify context) as [solutions ambiguous] eqn:Hcl.
  destruct (print_summary_writes w context solutions ambiguous
              (most_common (Counter (errors context)))) as [c [Hc Hin]].
  assert (E : console (fst (run w)) = c).
  { unfold run, summarize_session.
    unfold bind at 1. unfold lift. rewrite Hctx, Hcl.
    unfold bind at 1. rewrite Hc. cbv beta.
    match goal with
    | |- context [bind (write_bugfixes ?w ?c ?f ?s ?a ?m) ?k ?o] =>
        pose proof (console_kept_files w c f s a m o) as Hk
    end.
    unfold console_kept in Hk. rewrite Hk. reflexivity. }
  rewrite E. apply Hin. now apply errors_make_groups.
Qed.

Lemma issues_heading_whenever_errors_witness :
  In console_issues_header
     (console (fst (run (world_of far_fix_transcript))))
  /\ In "1. Address remaining errors"
        (console (fst (run (world_of far_fix_transcript)))).
Proof.
  apply (issues_heading_whenever_errors (world_of far_fix_transcript)
                                        far_fix_transcript).
  - reflexivity.
  - vm_compute. discriminate.
Defined.

(** When no source yields a transcript, the sentinel text is analysed in
    its place and triggers no pattern: the run completes, prints only the
    heading, the date and the generic next step, and appends only the
    dated session heading to the append-log. *)
Theorem no_context_minimal_report (w : World) :
  get_conversation_context w = Ret sentinel ->
  exists s,
    run w
    = ({| console :=
            [NL ++ "=== Session Summary ===" ++ NL;
             "Session Date: " ++ clock w 0 ++ NL;
             NL ++ "Next Steps:";
             "3. Continue with planned development tasks"];
          bugfixes_md := old_bugfixes w ++ [session_heading w];
          summary_md := s |}, Ret tt).
Proof.
  intros Hctx. unfold run, summarize_session.
  unfold bind at 1. unfold lift. rewrite Hctx.
  change (errors sentinel) with (@nil string).
  change (frustration sentinel) with (@nil string).
  change (classify sentinel) with (@nil string, @nil (string * string)).
  change (most_common (Counter [])) with (@nil (string * nat)).
  cbv iota beta.
  unfold print_summary, write_bugfixes, write_snapshot, snapshot_body,
    write_external, try_pass, when, bind, lift, print, open, getattr_write,
    ret, write, for_, nonempty, orb, session_heading.
  cbn [console bugfixes_md summary_md app].
  destruct (git_diff w) as [g|]; [destruct (truthy g)|];
    (destruct (tree w) as [t|]; [destruct (truthy t)|]);
    cbn [console bugfixes_md summary_md app]; eexists; reflexivity.
Qed.

Lemma no_context_minimal_report_witness :
  exists s,
    run (silent_world)
    = ({| console :=
            [NL ++ "=== Session Summary ===" ++ NL;
             "Session Date: " ++ clock silent_world 0 ++ NL;
             NL ++ "Next Steps:";
             "3. Continue with planned development tasks"];
          bugfixes_md := old_bugfixes silent_world
                         ++ [session_heading silent_world];
          summary_md := s |}, Ret tt).
Proof.
  apply (no_context_minimal_report silent_world).
  reflexivity.
Defined.

(** Every error group without resolution snippet is listed on the
    console with its count, whether or not the run completes. *)
Theorem unresolved_group_is_listed
        (w : World) (context : string) (ec : string * nat) :
  get_conversation_context w = Ret context ->
  In ec (most_common (Counter (errors context))) ->
  find_solution_for_error context (fst ec) 5 = None ->
  In (issue_line ec) (console (fst (run w))).
Proof.
  intros Hctx Hin Hnone.
  destruct (classify context) as [solutions ambiguous] eqn:Hcl.
  assert (Hc : exists c,
             writes Console c
                    (print_summary w context solutions ambiguous
                       (most_common (Counter (errors context))))
             /\ In (issue_line ec) c).
  { eexists. split.
    - unfold print_summary.
      repeat first
        [ eapply writes_print
        | eapply writes_when
        | eapply writes_for; intros ?
        | eapply writes_bind; [|intros _] ].
    - destruct (most_common (Counter (errors context))) as [|e es] eqn:Hm;
        [destruct Hin|].
      cbn [nonempty]. rewrite !in_app_iff.
      match goal with
      | |- context [In ?x (flat_map ?F (e :: es))] =>
          assert (Hf : In x (flat_map F (e :: es)))
      end.
      { apply in_flat_map. exists ec. split; [exact Hin|].
        cbv beta. rewrite Hnone. cbn [is_true negb]. now left. }
      intuition. }
  destruct Hc as [c [Hc Hline]].
  assert (E : console (fst (run w)) = c).
  { unfold run, summarize_session.
    unfold bind at 1. unfold lift. rewrite Hctx, Hcl.
    unfold bind at 1. rewrite Hc. cbv beta.
    match goal with
    | |- context [bind (write_bugfixes ?w ?c ?f ?s ?a ?m) ?k ?o] =>
        pose proof (console_kept_files w c f s a m o) as Hk
    end.
    unfold console_kept in Hk. rewrite Hk. reflexivity. }
  rewrite E. exact Hline.
Qed.

Lemma unresolved_group_is_listed_witness :
  In (issue_line (example_error, 1))
     (console (fst (run (world_of example_transcript)))).
Proof.
  apply (unresolved_group_is_listed (world_of example_transcript)
                                    example_transcript (example_error, 1)).
  - reflexivity.
  - vm_compute. left. reflexivity.
  - vm_compute. reflexivity.
Defined.

Lemma has_group_alt_lits (w : string) (ws : list string) :
  has_group (alt_lits w ws) = false.
Proof. revert w; induction ws as [|w' ws IH]; intros w; cbn; auto. Qed.

(** The tail of a tier pattern reads at most [n] boundaries in [n]
    rounds. *)
Lemma trailing_stops (kf : cont) (n : nat) :
  (forall s g x, kf s g = Some x -> fst x = s) ->
  forall s g x,
    upto_loop (exec true (Seq (Cls stop) (star not_stop))) n s g kf = Some x ->
    exists mm, s = mm ++ fst x /\ count_stops mm <= n.
Proof.
  intros Hkf. induction n as [|n IH]; intros s g x H.
  - cbn [upto_loop] in H. exists "". rewrite (Hkf _ _ _ H). now split.
  - cbn [upto_loop] in H.
    destruct (exec true (Seq (Cls stop) (star not_stop)) s g _) as [y|] eqn:E.
    + injection H as ->. unfold star in E. cbn [exec] in E.
      destruct s as [|c s3]; [discriminate E|].
      destruct (in_class true stop c) eqn:Hc; [|discriminate E].
      apply exec_rep_sound in E as [b [s4 [-> [Hb [_ E]]]]].
      apply IH in E as [mm [Hs4 Hmm]].
      exists (String c b ++ mm). split.
      * cbn [append]. rewrite append_assoc. now rewrite <- Hs4.
      * rewrite count_stops_append. cbn [count_stops].
        rewrite (stop_class true c Hc), (all_in_not_stop true b Hb). lia.
    + exists "". rewrite (Hkf _ _ _ H). split; [reflexivity|simpl; lia].
Qed.

(** What an attempt of a tier pattern records: a trigger word, the rest
    of its sentence or line, and at most two more. *)
Lemma tier_attempt_stops (w : string) (ws : list string) (t : string)
      (ma : bool) (m : result) :
  (forall p, In p (w :: ws) -> count_stops p = 0) ->
  attempt true (Seq (alt_lits w ws) (Seq (star not_stop) trailing)) ma t
  = Some m ->
  count_stops (recorded (Seq (alt_lits w ws) (Seq (star not_stop) trailing))
                        t m) <= 2.
Proof.
  intros Hws. unfold attempt, recorded.
  change (has_group (Seq (alt_lits w ws) (Seq (star not_stop) trailing)))
    with (has_group (alt_lits w ws) || false).
  rewrite has_group_alt_lits. cbn [orb].
  change (exec true (Seq ?v ?tl) t None ?k)
    with (exec true v t None (fun s' g' => exec true tl s' g' k)).
  intros H. apply alt_lits_sound in H as [p [s1 [Hin [Hl H]]]].
  apply exec_lit_split in Hl as [m0 [-> Hm0]]. rewrite (Hws p Hin) in Hm0.
  unfold star, trailing in H. cbn [exec] in H.
  apply exec_rep_sound in H as [a [s2 [-> [Ha [_ H]]]]].
  apply trailing_stops in H as [mm [-> Hmm]].
  - replace (m0 ++ a ++ mm ++ fst m) with ((m0 ++ a ++ mm) ++ fst m)
      by (rewrite !append_assoc; reflexivity).
    rewrite consumed_app, !count_stops_append.
    rewrite Hm0, (all_in_not_stop true a Ha). lia.
  - intros s g x Hx. apply attempt_cont_inv in Hx. now subst x.
Qed.

Lemma tier_phrase_stops (w : string) (ws : list string) (context m : string) :
  (forall p, In p (w :: ws) -> count_stops p = 0) ->
  In m (findall true (Seq (alt_lits w ws) (Seq (star not_stop) trailing))
                context) ->
  count_stops m <= 2.
Proof.
  intros Hws Hin. unfold findall in Hin.
  pose proof (scan_forall true _ (fun x => count_stops x <= 2) context
                (fun t ma r => tier_attempt_stops w ws t ma r Hws) 0) as Hall.
  rewrite Forall_forall in Hall. exact (Hall m Hin).
Qed.

(** A solution or attempt phrase runs from its trigger to the end of the
    sentence or line and over at most two more: it holds at most two
    boundaries, full stops or newlines. *)
Theorem phrase_spans_at_most_three_statements (context m : string) :
  In m (fst (classify context)) \/ In m (map snd (snd (classify context))) ->
  count_stops m <= 2.
Proof.
  rewrite classify_tiers. cbn [fst snd].
  rewrite map_app, !map_map. cbn [snd]. rewrite !map_id, in_app_iff.
  intros [H|[H|H]].
  - apply (tier_phrase_stops "that worked" ["fixed"; "solved"] context m);
      [|exact H].
    intros p [<-|[<-|[<-|[]]]]; reflexivity.
  - apply (tier_phrase_stops "let's try" ["try something"; "different approach"]
                             context m); [|exact H].
    intros p [<-|[<-|[<-|[]]]]; reflexivity.
  - apply (tier_phrase_stops "this might" ["maybe"; "could try"] context m);
      [|exact H].
    intros p [<-|[<-|[<-|[]]]]; reflexivity.
Qed.

Lemma phrase_spans_at_most_three_statements_witness :
  count_stops ("let's try a different approach" ++ NL ++ ".") <= 2.
Proof.
  apply (phrase_spans_at_most_three_statements example_transcript).
  right. vm_compute. left. reflexivity.
Defined.
